(** * Intcode machine of aoc2019 (src/bin/day9.rs, src/bin/day7.rs)

    Shallow embedding of the Intcode instruction-set simulator [IntcodeISS].
    - [Addr] is Rust's [usize] (64 bits), modelled as [N] below [2^64];
      [Value] is [i64], modelled as [Z].
    - Arithmetic follows the debug build (the profile of [cargo run] and
      [cargo test]): an overflowing [+], [*] or [+=] panics.
    - A panic ([unimplemented!], a failed index, an overflow, a capacity
      overflow of [Vec::resize]) is [None] / [Crashed].
    - [v as Addr] for an [i64] value [v] is the two's complement
      reinterpretation [v mod 2^64].
    - [Vec<i64>] can hold at most [isize::MAX / 8] cells; asking
      [Vec::resize] for more panics with a capacity overflow.  Allocation
      below that limit is assumed to succeed.
    - The [loop] of [compute] is run with a fuel bound. *)

From Stdlib Require Import ZArith NArith Lia.
From stdpp Require Import base list options.

Module Day9.

Abbreviation Addr := N (only parsing).
Abbreviation Value := Z (only parsing).

Definition PAGE_SIZE : N := 1024.
Definition USIZE_LIMIT : N := 2 ^ 64.
(** [isize::MAX / size_of::<i64>()]: the largest length of a [Vec<i64>]. *)
Definition VEC_MAX : N := (2 ^ 63 - 1) / 8.

Inductive StopReason := NeedInput | ProgramHalt.

Record IntcodeISS := {
  mem : list Value;
  pc : Addr;
  relative_base : Value
}.

Inductive Instruction :=
  | Add (d : Addr) (op1 op2 : Value)
  | Mul (d : Addr) (op1 op2 : Value)
  | Get (d : Addr)
  | Put (op1 : Value)
  | Jpt (op1 : Value) (d : Addr)
  | Jpf (op1 : Value) (d : Addr)
  | Lt (d : Addr) (op1 op2 : Value)
  | Eq (d : Addr) (op1 op2 : Value)
  | Rbo (op1 : Value)
  | Halt.

Definition with_mem (st : IntcodeISS) (m : list Value) : IntcodeISS :=
  {| mem := m; pc := pc st; relative_base := relative_base st |}.
Definition with_pc (st : IntcodeISS) (p : Addr) : IntcodeISS :=
  {| mem := mem st; pc := p; relative_base := relative_base st |}.
Definition with_rb (st : IntcodeISS) (rb : Value) : IntcodeISS :=
  {| mem := mem st; pc := pc st; relative_base := rb |}.

(** i64 arithmetic of the debug build: overflow panics. *)
Definition checked_i64 (z : Z) : option Value :=
  if ((- 2 ^ 63 <=? z) && (z <? 2 ^ 63))%Z then Some z else None.

(** usize arithmetic of the debug build: overflow panics. *)
Definition checked_usize (n : N) : option Addr :=
  if (n <? USIZE_LIMIT)%N then Some n else None.

(** [v as Addr] *)
Definition as_addr (v : Value) : Addr := Z.to_N (v mod 2 ^ 64).

(** [Vec::get] and [Vec::get_mut] followed by a store. *)
Definition vec_get (m : list Value) (a : Addr) : option Value :=
  if (a <? N.of_nat (length m))%N then m !! N.to_nat a else None.
Definition vec_set (m : list Value) (a : Addr) (v : Value) : option (list Value) :=
  if (a <? N.of_nat (length m))%N then Some (<[N.to_nat a := v]> m) else None.

(** [Vec::resize(n, 0)]: fails beyond the capacity limit. *)
Definition vec_resize (m : list Value) (n : N) : option (list Value) :=
  if (VEC_MAX <? n)%N then None else Some (resize (N.to_nat n) 0%Z m).

Definition new (prog : list Value) : IntcodeISS :=
  {| mem := prog; pc := 0%N; relative_base := 0%Z |}.

Definition resize_mem (st : IntcodeISS) (addr : Addr) : option IntcodeISS :=
  s ← checked_usize (addr + PAGE_SIZE);
  let new_size := (s / PAGE_SIZE * PAGE_SIZE)%N in
  m ← vec_resize (mem st) new_size;
  Some (with_mem st m).

Definition peek (st : IntcodeISS) (addr : Addr) : option (IntcodeISS * Value) :=
  match vec_get (mem st) addr with
  | Some cell => Some (st, cell)
  | None =>
      st' ← resize_mem st addr;
      cell ← vec_get (mem st') addr;
      Some (st', cell)
  end.

Definition poke (st : IntcodeISS) (addr : Addr) (val : Value) : option IntcodeISS :=
  match vec_set (mem st) addr val with
  | Some m => Some (with_mem st m)
  | None =>
      st' ← resize_mem st addr;
      m ← vec_set (mem st') addr val;
      Some (with_mem st' m)
  end.

Definition addr_fetch (st : IntcodeISS) (am val : Value) : option Addr :=
  match am with
  | 0%Z => Some (as_addr val)
  | 1%Z => Some (as_addr val)
  | 2%Z => r ← checked_i64 (relative_base st + val); Some (as_addr r)
  | _ => None
  end.

Definition fetch (st : IntcodeISS) (am val : Value) : option (IntcodeISS * Value) :=
  match am with
  | 0%Z => peek st (as_addr val)
  | 1%Z => Some (st, val)
  | 2%Z => r ← checked_i64 (relative_base st + val); peek st (as_addr r)
  | _ => None
  end.

(** The split of an instruction word with Rust's [/] and [%] on [i64]
    (truncating division and remainder): [(md, m2, m1, opcode)]. *)
Definition decode_fields (word : Value) : Value * Value * Value * Value :=
  (Z.rem (Z.quot word 10000) 10, Z.rem (Z.quot word 1000) 10,
   Z.rem (Z.quot word 100) 10, Z.rem word 100).

Definition decode (st : IntcodeISS) (addr : Addr) : option (IntcodeISS * Instruction) :=
  '(st, word) ← peek st addr;
  let '(md, m2, m1, opcode) := decode_fields word in
  a1 ← checked_usize (pc st + 1); '(st, r1) ← peek st a1;
  a2 ← checked_usize (pc st + 2); '(st, r2) ← peek st a2;
  a3 ← checked_usize (pc st + 3); '(st, rd) ← peek st a3;
  match opcode with
  | 1%Z => d ← addr_fetch st md rd; '(st, op1) ← fetch st m1 r1;
           '(st, op2) ← fetch st m2 r2; Some (st, Add d op1 op2)
  | 2%Z => d ← addr_fetch st md rd; '(st, op1) ← fetch st m1 r1;
           '(st, op2) ← fetch st m2 r2; Some (st, Mul d op1 op2)
  | 3%Z => d ← addr_fetch st m1 r1; Some (st, Get d)
  | 4%Z => '(st, op1) ← fetch st m1 r1; Some (st, Put op1)
  | 5%Z => '(st, op1) ← fetch st m1 r1; '(st, op2) ← fetch st m2 r2;
           Some (st, Jpt op1 (as_addr op2))
  | 6%Z => '(st, op1) ← fetch st m1 r1; '(st, op2) ← fetch st m2 r2;
           Some (st, Jpf op1 (as_addr op2))
  | 7%Z => d ← addr_fetch st md rd; '(st, op1) ← fetch st m1 r1;
           '(st, op2) ← fetch st m2 r2; Some (st, Lt d op1 op2)
  | 8%Z => d ← addr_fetch st md rd; '(st, op1) ← fetch st m1 r1;
           '(st, op2) ← fetch st m2 r2; Some (st, Eq d op1 op2)
  | 9%Z => '(st, op1) ← fetch st m1 r1; Some (st, Rbo op1)
  | 99%Z => Some (st, Halt)
  | _ => None
  end.

(** The body of the [loop] in [compute]. *)
Inductive IssOp := Step (len : Addr) | Jump (a : Addr) | HaltOp.

Inductive Exec :=
  | ExecOp (st : IntcodeISS) (input : list Value) (out : option Value) (op : IssOp)
  | ExecBreak (r : StopReason) (st : IntcodeISS)
  | ExecFault.

Definition store (st : IntcodeISS) (d : Addr) (v : Value) (input : list Value)
    (len : Addr) : Exec :=
  match poke st d v with
  | Some st' => ExecOp st' input None (Step len)
  | None => ExecFault
  end.

Definition execute (st : IntcodeISS) (ins : Instruction) (input : list Value) : Exec :=
  match ins with
  | Add d op1 op2 =>
      match checked_i64 (op1 + op2) with
      | Some v => store st d v input 4%N | None => ExecFault end
  | Mul d op1 op2 =>
      match checked_i64 (op1 * op2) with
      | Some v => store st d v input 4%N | None => ExecFault end
  | Get d =>
      match input with
      | i :: rest => store st d i rest 2%N
      | [] => ExecBreak NeedInput st
      end
  | Put op1 => ExecOp st input (Some op1) (Step 2%N)
  | Jpt op1 d => ExecOp st input None (if decide (op1 <> 0%Z) then Jump d else Step 3%N)
  | Jpf op1 d => ExecOp st input None (if decide (op1 = 0%Z) then Jump d else Step 3%N)
  | Lt d op1 op2 => store st d (if (op1 <? op2)%Z then 1%Z else 0%Z) input 4%N
  | Eq d op1 op2 => store st d (if (op1 =? op2)%Z then 1%Z else 0%Z) input 4%N
  | Rbo op1 =>
      match checked_i64 (relative_base st + op1) with
      | Some rb => ExecOp (with_rb st rb) input None (Step 2%N)
      | None => ExecFault
      end
  | Halt => ExecOp st input None HaltOp
  end.

Inductive StepResult :=
  | Continue (st : IntcodeISS) (input : list Value) (out : option Value)
  | Stop (r : StopReason) (st : IntcodeISS)
  | Fault.

Definition step (st : IntcodeISS) (input : list Value) : StepResult :=
  match decode st (pc st) with
  | None => Fault
  | Some (st1, ins) =>
      match execute st1 ins input with
      | ExecFault => Fault
      | ExecBreak r st2 => Stop r st2
      | ExecOp st2 input' out op =>
          match op with
          | Step len =>
              match checked_usize (pc st2 + len) with
              | Some p => Continue (with_pc st2 p) input' out
              | None => Fault
              end
          | Jump a => Continue (with_pc st2 a) input' out
          | HaltOp => Stop ProgramHalt st2
          end
      end
  end.

Inductive Outcome :=
  | Finished (r : StopReason) (st : IntcodeISS) (output : list Value)
  | Crashed
  | OutOfFuel.

Fixpoint compute_loop (fuel : nat) (st : IntcodeISS) (input output : list Value)
    : Outcome :=
  match fuel with
  | O => OutOfFuel
  | S f =>
      match step st input with
      | Fault => Crashed
      | Stop r st' => Finished r st' output
      | Continue st' input' out =>
          compute_loop f st' input'
            (match out with Some v => output ++ [v] | None => output end)
      end
  end.

Definition compute (fuel : nat) (st : IntcodeISS) (input : list Value) : Outcome :=
  compute_loop fuel st input [].

(** The addresses below [MEM_LIMIT] are exactly those whose page
    [(addr + PAGE_SIZE) / PAGE_SIZE * PAGE_SIZE] fits in [VEC_MAX]. *)
Definition MEM_LIMIT : N := 2 ^ 60 - 1024.

(** The address-to-value mapping of a memory: an address beyond the
    backing vector reads as 0. *)
Definition mem_get (m : list Value) (a : Addr) : Value :=
  default 0%Z (m !! N.to_nat a).

(** Backing vectors never exceed what [resize_mem] can produce. *)
Definition wf (st : IntcodeISS) : Prop :=
  (N.of_nat (length (mem st)) <= MEM_LIMIT)%N.

(** Equal observable state: same mapping, pointer and relative base;
    the length of the backing vector is not observable. *)
Definition st_equiv (s1 s2 : IntcodeISS) : Prop :=
  (forall a, mem_get (mem s1) a = mem_get (mem s2) a) /\
  pc s1 = pc s2 /\ relative_base s1 = relative_base s2.

(** Relating two runs from observationally equal machines. *)
Definition res_rel {A} (o1 o2 : option (IntcodeISS * A)) : Prop :=
  match o1, o2 with
  | None, None => True
  | Some (s1, x1), Some (s2, x2) => x1 = x2 /\ st_equiv s1 s2 /\ wf s1 /\ wf s2
  | _, _ => False
  end.

Definition poke_rel (o1 o2 : option IntcodeISS) : Prop :=
  match o1, o2 with
  | None, None => True
  | Some s1, Some s2 => st_equiv s1 s2 /\ wf s1 /\ wf s2
  | _, _ => False
  end.

Definition exec_rel (e1 e2 : Exec) : Prop :=
  match e1, e2 with
  | ExecOp s1 i1 o1 op1, ExecOp s2 i2 o2 op2 =>
      i1 = i2 /\ o1 = o2 /\ op1 = op2 /\ st_equiv s1 s2 /\ wf s1 /\ wf s2
  | ExecBreak r1 s1, ExecBreak r2 s2 => r1 = r2 /\ st_equiv s1 s2 /\ wf s1 /\ wf s2
  | ExecFault, ExecFault => True
  | _, _ => False
  end.

Definition step_rel (e1 e2 : StepResult) : Prop :=
  match e1, e2 with
  | Continue s1 i1 o1, Continue s2 i2 o2 =>
      i1 = i2 /\ o1 = o2 /\ st_equiv s1 s2 /\ wf s1 /\ wf s2
  | Stop r1 s1, Stop r2 s2 => r1 = r2 /\ st_equiv s1 s2 /\ wf s1 /\ wf s2
  | Fault, Fault => True
  | _, _ => False
  end.

Definition outcome_rel (e1 e2 : Outcome) : Prop :=
  match e1, e2 with
  | Finished r1 s1 out1, Finished r2 s2 out2 =>
      r1 = r2 /\ out1 = out2 /\ st_equiv s1 s2 /\ wf s1 /\ wf s2
  | Crashed, Crashed => True
  | OutOfFuel, OutOfFuel => True
  | _, _ => False
  end.

(** [t] is [s] with a possibly longer backing vector. *)
Definition extends (t s : IntcodeISS) : Prop :=
  st_equiv t s /\ length (mem s) <= length (mem t).






(** The opcodes [decode] recognises. *)
Definition recognised_opcodes : list Value := [1; 2; 3; 4; 5; 6; 7; 8; 9; 99]%Z.

(** [fetch] with relative base [rb] succeeds on a machine whose backing
    vector is within the limit. *)
Definition operand_ok (rb am val : Value) : bool :=
  match am with
  | 0%Z => (as_addr val <? MEM_LIMIT)%N
  | 1%Z => true
  | 2%Z => match checked_i64 (rb + val) with
           | Some r => (as_addr r <? MEM_LIMIT)%N
           | None => false
           end
  | _ => false
  end.

(** [addr_fetch] with relative base [rb] succeeds. *)
Definition target_ok (rb am val : Value) : bool :=
  match am with
  | 0%Z | 1%Z => true
  | 2%Z => if checked_i64 (rb + val) then true else false
  | _ => false
  end.

(** The operands of the instruction word [word] (followed by the cells
    [r1], [r2], [rd]) can all be resolved. *)
Definition operands_ok (rb word r1 r2 rd : Value) : bool :=
  let '(md, m2, m1, opcode) := decode_fields word in
  match opcode with
  | 1%Z | 2%Z | 7%Z | 8%Z =>
      target_ok rb md rd && operand_ok rb m1 r1 && operand_ok rb m2 r2
  | 3%Z => target_ok rb m1 r1
  | 4%Z | 9%Z => operand_ok rb m1 r1
  | 5%Z | 6%Z => operand_ok rb m1 r1 && operand_ok rb m2 r2
  | 99%Z => true
  | _ => false
  end.

(** The split of an instruction word as the specification words it:
    [opcode = word mod 100] and the modes are the decimal digits above it
    (floor division and modulo). *)
Definition spec_decode_fields (word : Value) : Value * Value * Value * Value :=
  ((word / 10000) mod 10, (word / 1000) mod 10, (word / 100) mod 10, word mod 100)%Z.

End Day9.

(** * The machine of src/bin/day7.rs and its amplifier chain

    [Addr] is [u32] and [Value] is [i32]; arithmetic follows the debug
    build (overflow panics); indexing out of the backing vector panics
    (the memory does not grow); a panic is [None] / [Crashed]. *)
Module Day7.

Abbreviation Addr := N (only parsing).
Abbreviation Value := Z (only parsing).

Definition U32_LIMIT : N := 2 ^ 32.

Inductive StopReason := NeedInput | ProgramHalt.

Record IntcodeISS := {
  mem : list Value;
  pc : Addr
}.

Inductive Instruction :=
  | Add (d : Addr) (op1 op2 : Value)
  | Mul (d : Addr) (op1 op2 : Value)
  | Get (d : Addr)
  | Put (op1 : Value)
  | Jpt (op1 : Value) (d : Addr)
  | Jpf (op1 : Value) (d : Addr)
  | Lt (d : Addr) (op1 op2 : Value)
  | Eq (d : Addr) (op1 op2 : Value)
  | Halt.

(** i32 and u32 arithmetic of the debug build. *)
Definition checked_i32 (z : Z) : option Value :=
  if ((- 2 ^ 31 <=? z) && (z <? 2 ^ 31))%Z then Some z else None.
Definition checked_u32 (n : N) : option Addr :=
  if (n <? U32_LIMIT)%N then Some n else None.

(** [v as Addr] for an [i32] value. *)
Definition as_addr (v : Value) : Addr := Z.to_N (v mod 2 ^ 32).

Definition new (prog : list Value) : IntcodeISS :=
  {| mem := prog; pc := 0%N |}.

(** [self.mem[i as usize]] *)
Definition peek (st : IntcodeISS) (i : Addr) : option Value :=
  if (i <? N.of_nat (length (mem st)))%N then mem st !! N.to_nat i else None.

(** [self.mem[i as usize] = val] *)
Definition poke (st : IntcodeISS) (i : Addr) (val : Value) : option IntcodeISS :=
  if (i <? N.of_nat (length (mem st)))%N
  then Some {| mem := <[N.to_nat i := val]> (mem st); pc := pc st |}
  else None.

Definition decode (st : IntcodeISS) (addr : Addr) : option Instruction :=
  word ← peek st addr;
  let '(md, m2, m1, opcode) :=
    (Z.rem (Z.quot word 10000) 10, Z.rem (Z.quot word 1000) 10,
     Z.rem (Z.quot word 100) 10, Z.rem word 100) in
  (* assert_eq!(md, 0) *)
  if negb (md =? 0)%Z then None else
  let r1 := a ← checked_u32 (pc st + 1); peek st a in
  let r2 := a ← checked_u32 (pc st + 2); peek st a in
  let rd := a ← checked_u32 (pc st + 3); peek st a in
  let fetch am val :=
    match am with
    | 0%Z => peek st (as_addr val)
    | 1%Z => Some val
    | _ => None
    end in
  match opcode with
  | 1%Z => d ← rd; op1 ← (r1 ≫= fetch m1); op2 ← (r2 ≫= fetch m2);
           Some (Add (as_addr d) op1 op2)
  | 2%Z => d ← rd; op1 ← (r1 ≫= fetch m1); op2 ← (r2 ≫= fetch m2);
           Some (Mul (as_addr d) op1 op2)
  | 3%Z => d ← r1; Some (Get (as_addr d))
  | 4%Z => op1 ← (r1 ≫= fetch m1); Some (Put op1)
  | 5%Z => op1 ← (r1 ≫= fetch m1); op2 ← (r2 ≫= fetch m2);
           Some (Jpt op1 (as_addr op2))
  | 6%Z => op1 ← (r1 ≫= fetch m1); op2 ← (r2 ≫= fetch m2);
           Some (Jpf op1 (as_addr op2))
  | 7%Z => d ← rd; op1 ← (r1 ≫= fetch m1); op2 ← (r2 ≫= fetch m2);
           Some (Lt (as_addr d) op1 op2)
  | 8%Z => d ← rd; op1 ← (r1 ≫= fetch m1); op2 ← (r2 ≫= fetch m2);
           Some (Eq (as_addr d) op1 op2)
  | 99%Z => Some Halt
  | _ => None
  end.

Inductive IssOp := Step (len : Addr) | Jump (a : Addr) | HaltOp.

Inductive StepResult :=
  | Continue (st : IntcodeISS) (input : list Value) (out : option Value)
  | Stop (r : StopReason) (st : IntcodeISS)
  | Fault.

(** One pass of the [loop] of [compute]. *)
Definition step (st : IntcodeISS) (input : list Value) : StepResult :=
  let finish (res : option (IntcodeISS * list Value * option Value * IssOp)) :=
    match res with
    | None => Fault
    | Some (st', input', out, Step len) =>
        match checked_u32 (pc st' + len) with
        | Some p => Continue {| mem := mem st'; pc := p |} input' out
        | None => Fault
        end
    | Some (st', input', out, Jump a) => Continue {| mem := mem st'; pc := a |} input' out
    | Some (st', _, _, HaltOp) => Stop ProgramHalt st'
    end in
  match decode st (pc st) with
  | None => Fault
  | Some ins =>
      match ins with
      | Add d op1 op2 =>
          finish (v ← checked_i32 (op1 + op2); st' ← poke st d v;
                  Some (st', input, None, Step 4%N))
      | Mul d op1 op2 =>
          finish (v ← checked_i32 (op1 * op2); st' ← poke st d v;
                  Some (st', input, None, Step 4%N))
      | Get d =>
          match input with
          | i :: rest => finish (st' ← poke st d i; Some (st', rest, None, Step 2%N))
          | [] => Stop NeedInput st
          end
      | Put op1 => finish (Some (st, input, Some op1, Step 2%N))
      | Jpt op1 d =>
          finish (Some (st, input, None, if decide (op1 <> 0%Z) then Jump d else Step 3%N))
      | Jpf op1 d =>
          finish (Some (st, input, None, if decide (op1 = 0%Z) then Jump d else Step 3%N))
      | Lt d op1 op2 =>
          finish (st' ← poke st d (if (op1 <? op2)%Z then 1%Z else 0%Z);
                  Some (st', input, None, Step 4%N))
      | Eq d op1 op2 =>
          finish (st' ← poke st d (if (op1 =? op2)%Z then 1%Z else 0%Z);
                  Some (st', input, None, Step 4%N))
      | Halt => finish (Some (st, input, None, HaltOp))
      end
  end.

Inductive Outcome :=
  | Finished (r : StopReason) (st : IntcodeISS) (output : list Value)
  | Crashed
  | OutOfFuel.

Fixpoint compute_loop (fuel : nat) (st : IntcodeISS) (input output : list Value)
    : Outcome :=
  match fuel with
  | O => OutOfFuel
  | S f =>
      match step st input with
      | Fault => Crashed
      | Stop r st' => Finished r st' output
      | Continue st' input' out =>
          compute_loop f st' input'
            (match out with Some v => output ++ [v] | None => output end)
      end
  end.

Definition compute (fuel : nat) (st : IntcodeISS) (input : list Value) : Outcome :=
  compute_loop fuel st input [].

(** The initialisation block of [eval_amp_chain_loopback]: for each phase
    setting, [init_input[0] = phase]; a fresh machine is run on
    [init_input]; [init_input[1] = output[0]]; the machine is pushed to
    [amp_chain].  [init_input] always has two cells.  The last component
    records, as a ghost log, the input sequence each machine was run on. *)
Fixpoint init_chain (fuel : nat) (amp_sw phase_setting init_input : list Value)
    (amp_chain : list IntcodeISS) (given : list (list Value))
    : option (list Value * list IntcodeISS * list (list Value)) :=
  match phase_setting with
  | [] => Some (init_input, amp_chain, given)
  | p :: ps =>
      let init_input := <[0 := p]> init_input in
      match compute fuel (new amp_sw) init_input with
      | Finished _ iss output =>
          o ← output !! 0;
          init_chain fuel amp_sw ps (<[1 := o]> init_input) (amp_chain ++ [iss])
            (given ++ [init_input])
      | _ => None
      end
  end.

Definition eval_amp_chain_init (fuel : nat) (amp_sw phase_setting : list Value)
    : option (list Value * list IntcodeISS * list (list Value)) :=
  init_chain fuel amp_sw phase_setting [0; 0]%Z [] [].

(** The program of the test [test_example_amp1_loopback]. *)
Definition example_amp1_loopback : list Value :=
  [3; 26; 1001; 26; -4; 26; 3; 27; 1002; 27; 2; 27; 1; 27; 26; 27; 4; 27;
   1001; 28; -1; 28; 1005; 28; 6; 99; 0; 0; 5]%Z.


(** [eval_amp_chain]: [input = [0, 0]]; for [i] in [0..5],
    [input[0] = phase_setting[i]], a fresh machine is run on [input] and
    [input[1] = output[0]]; the result is [input[1]].  [phase_setting] is
    a [[i32; 5]]; an index outside it panics like the source. *)
Fixpoint amp_chain_loop (fuel : nat) (amp_sw : list Value) (idx : list nat)
    (phase_setting input : list Value) : option (list Value) :=
  match idx with
  | [] => Some input
  | i :: idx' =>
      p ← phase_setting !! i;
      let input := <[0 := p]> input in
      match compute fuel (new amp_sw) input with
      | Finished _ _ output =>
          o ← output !! 0;
          amp_chain_loop fuel amp_sw idx' phase_setting (<[1 := o]> input)
      | _ => None
      end
  end.

Definition eval_amp_chain (fuel : nat) (amp_sw phase_setting : list Value) : option Value :=
  input ← amp_chain_loop fuel amp_sw (seq 0 5) phase_setting [0; 0]%Z;
  input !! 1.

(** Outcome of [eval_amp_chain_loopback]: the signal, a panic, fuel
    exhausted in the feedback loop, or an initialisation block that did not
    complete (a panic or fuel exhausted there). *)
Inductive LoopOutcome :=
  | Signal (v : Value)
  | LoopCrashed
  | LoopOutOfFuel
  | InitFailed.

(** One pass of [for i in 0..5] in the feedback loop: [amp_chain[i]]
    resumes on [input], its output becomes the next [input] and its stop
    reason the [stop_reason]. *)
Fixpoint chain_round (fuel : nat) (idx : list nat) (amp_chain : list IntcodeISS)
    (input : list Value) (stop_reason : StopReason)
    : (list IntcodeISS * list Value * StopReason) + LoopOutcome :=
  match idx with
  | [] => inl (amp_chain, input, stop_reason)
  | i :: idx' =>
      match amp_chain !! i with
      | None => inr LoopCrashed
      | Some iss =>
          match compute fuel iss input with
          | Finished reason iss' output =>
              chain_round fuel idx' (<[i := iss']> amp_chain) output reason
          | Crashed => inr LoopCrashed
          | OutOfFuel => inr LoopOutOfFuel
          end
      end
  end.

(** The feedback [loop], bounded by [rounds] passes: it breaks with
    [input[0]] once the last amplifier of a pass halts. *)
Fixpoint feedback_loop (rounds fuel : nat) (amp_chain : list IntcodeISS)
    (input : list Value) : LoopOutcome :=
  match rounds with
  | O => LoopOutOfFuel
  | S k =>
      match chain_round fuel (seq 0 5) amp_chain input ProgramHalt with
      | inr o => o
      | inl (_, input', ProgramHalt) =>
          match input' !! 0 with
          | Some v => Signal v
          | None => LoopCrashed
          end
      | inl (amp_chain', input', NeedInput) => feedback_loop k fuel amp_chain' input'
      end
  end.

Definition eval_amp_chain_loopback (rounds fuel : nat) (amp_sw phase_setting : list Value)
    : LoopOutcome :=
  match eval_amp_chain_init fuel amp_sw phase_setting with
  | Some (init_input, amp_chain, _) =>
      match init_input !! 1 with
      | Some init_result => feedback_loop rounds fuel amp_chain [init_result]
      | None => LoopCrashed
      end
  | None => InitFailed
  end.

(** [input.swap(i, j)]; an index out of bounds panics. *)
Definition vec_swap (l : list Value) (i j : nat) : option (list Value) :=
  a ← l !! i; b ← l !! j; Some (<[i := b]> (<[j := a]> l)).

(** [input.pop().expect(..)]: the vector without its last element, and that
    element; an empty vector panics. *)
Definition vec_pop (l : list Value) : option (list Value * Value) :=
  x ← last l; Some (removelast l, x).

(** The [for i in (0..input_len).rev()] loop of [gen_combinations], with the
    recursive call [gen]. *)
Fixpoint combine_loop (gen : list Value -> option (list (list Value))) (input_len : nat)
    (idx : list nat) (input : list Value) (res_vec : list (list Value))
    : option (list (list Value)) :=
  match idx with
  | [] => Some res_vec
  | i :: idx' =>
      input ← vec_swap input i (input_len - 1);
      '(input, now) ← vec_pop input;
      combinations ← gen input;
      combine_loop gen input_len idx' (input ++ [now])
        (res_vec ++ map (fun comb => comb ++ [now]) combinations)
  end.

(** [gen_combinations], recursing on inputs one element shorter; [n] bounds
    the depth of the recursion and is [input.len()] at the top. *)
Fixpoint gen_aux (n : nat) (input : list Value) : option (list (list Value)) :=
  let input_len := length input in
  if decide (input_len = 1) then Some [input] else
  combine_loop (match n with O => fun _ => None | S n' => gen_aux n' end)
    input_len (rev (seq 0 input_len)) input [].

Definition gen_combinations (input : list Value) : option (list (list Value)) :=
  gen_aux (length input) input.

(** What [gen_combinations] is shown to return for [l]: [n!] lists for
    [n = length l >= 1] (none for the empty input), each a permutation of
    [l], pairwise distinct when [l] has no repeated element, and every
    permutation of a non-empty [l] among them. *)
Definition gen_spec (l : list Value) (r : list (list Value)) : Prop :=
  length r = match l with [] => 0 | _ => fact (length l) end /\
  (forall z, z ∈ r -> z ≡ₚ l) /\
  (NoDup l -> NoDup r) /\
  (l <> [] -> forall z, z ≡ₚ l -> z ∈ r).

(** [phase_setting.copy_from_slice(&c)] into a [[i32; 5]]: it panics unless
    [c] has five elements. *)
Definition copy_phase (c : list Value) : option (list Value) :=
  if decide (length c = 5) then Some c else None.

(** The [.map(..).fold(0, |signal, setting| max(signal, eval(setting)))] of
    [part_one] and [part_two]; [eval] is [None] where it panics. *)
Definition max_signal (eval : list Value -> option Value) (settings : list (list Value))
    : option Value :=
  foldl (fun acc c => signal ← acc; ps ← copy_phase c; v ← eval ps; Some (Z.max signal v))
    (Some 0%Z) settings.

(** [part_one] and [part_two] on the program [prog] that
    [read_program_from_file] returns. *)
Definition part_one (fuel : nat) (prog : list Value) : option Value :=
  combs ← gen_combinations [0; 1; 2; 3; 4]%Z;
  max_signal (eval_amp_chain fuel prog) combs.

Definition part_two (rounds fuel : nat) (prog : list Value) : option Value :=
  combs ← gen_combinations [5; 6; 7; 8; 9]%Z;
  max_signal (fun ps => match eval_amp_chain_loopback rounds fuel prog ps with
                        | Signal v => Some v
                        | _ => None
                        end) combs.
End Day7.

Module Day9Proofs.
Import Day9.

Ltac arith := zify; Z.div_mod_to_equations; lia.

Lemma vec_get_spec m a :
  vec_get m a = if (a <? N.of_nat (length m))%N then Some (mem_get m a) else None.
Proof.
  unfold vec_get, mem_get. destruct (N.ltb_spec a (N.of_nat (length m))); [|done].
  destruct (lookup_lt_is_Some_2 m (N.to_nat a)) as [x Hx]; [lia|]. rewrite Hx. done.
Qed.

Lemma mem_get_resize m n a :
  length m <= n -> mem_get (resize n 0%Z m) a = mem_get m a.
Proof.
  intros Hn. unfold mem_get.
  destruct (decide (N.to_nat a < length m)).
  - rewrite lookup_resize by lia. done.
  - rewrite (lookup_ge_None_2 m) by lia.
    destruct (decide (N.to_nat a < n)).
    + rewrite lookup_resize_new by lia. done.
    + rewrite lookup_resize_old by lia. done.
Qed.

Lemma mem_get_insert m a v i :
  (a < N.of_nat (length m))%N ->
  mem_get (<[N.to_nat a := v]> m) i = if decide (i = a) then v else mem_get m i.
Proof.
  intros Ha. unfold mem_get. case_decide as Hi.
  - subst. rewrite list_lookup_insert_eq by lia. done.
  - rewrite list_lookup_insert_ne by lia. done.
Qed.

Lemma page_bounds a :
  (a < MEM_LIMIT)%N ->
  (a < (a + PAGE_SIZE) / PAGE_SIZE * PAGE_SIZE)%N /\
  ((a + PAGE_SIZE) / PAGE_SIZE * PAGE_SIZE <= MEM_LIMIT)%N.
Proof. unfold MEM_LIMIT, PAGE_SIZE. intros. arith. Qed.

Lemma resize_mem_spec st a :
  resize_mem st a =
    if (a <? MEM_LIMIT)%N
    then Some (with_mem st
           (resize (N.to_nat ((a + PAGE_SIZE) / PAGE_SIZE * PAGE_SIZE)) 0%Z (mem st)))
    else None.
Proof.
  unfold resize_mem, checked_usize, vec_resize.
  destruct (N.ltb_spec (a + PAGE_SIZE) USIZE_LIMIT) as [H1|H1];
    destruct (N.ltb_spec a MEM_LIMIT) as [H2|H2]; simpl.
  - destruct (N.ltb_spec VEC_MAX ((a + PAGE_SIZE) / PAGE_SIZE * PAGE_SIZE)); [|done].
    exfalso. revert H2 H. unfold VEC_MAX, MEM_LIMIT, PAGE_SIZE. intros. arith.
  - destruct (N.ltb_spec VEC_MAX ((a + PAGE_SIZE) / PAGE_SIZE * PAGE_SIZE)); [done|].
    exfalso. revert H2 H. unfold VEC_MAX, MEM_LIMIT, PAGE_SIZE. intros. arith.
  - exfalso. revert H1 H2. unfold USIZE_LIMIT, MEM_LIMIT, PAGE_SIZE. intros. arith.
  - done.
Qed.

Lemma st_equiv_refl st : st_equiv st st.
Proof. done. Qed.

Lemma st_equiv_sym s1 s2 : st_equiv s1 s2 -> st_equiv s2 s1.
Proof. intros (Hm & Hp & Hr). split; [intros a; by rewrite Hm | done]. Qed.

Lemma st_equiv_trans s1 s2 s3 : st_equiv s1 s2 -> st_equiv s2 s3 -> st_equiv s1 s3.
Proof.
  intros (Hm & Hp & Hr) (Hm' & Hp' & Hr').
  split; [intros a; by rewrite Hm | split; congruence].
Qed.

Lemma peek_in_range st a :
  (a < N.of_nat (length (mem st)))%N -> peek st a = Some (st, mem_get (mem st) a).
Proof.
  intros Ha. unfold peek. rewrite vec_get_spec.
  destruct (N.ltb_spec a (N.of_nat (length (mem st)))); [done | lia].
Qed.

(** Growing the backing vector to the page of [a]. *)
Lemma resize_mem_frame st a st' :
  (N.of_nat (length (mem st)) <= a)%N -> resize_mem st a = Some st' ->
  st_equiv st' st /\ length (mem st) <= length (mem st') /\
  (a < N.of_nat (length (mem st')))%N /\ wf st'.
Proof.
  intros Hge. rewrite resize_mem_spec.
  destruct (N.ltb_spec a MEM_LIMIT) as [Hl|]; [|done]. intros [= <-].
  destruct (page_bounds a Hl) as [Hp1 Hp2]. unfold st_equiv, wf. simpl.
  rewrite length_resize. split; [|lia].
  split; [|done]. intros i. apply mem_get_resize. lia.
Qed.

(** Everything [peek] does to the machine: at most grow the backing vector. *)
Lemma peek_frame st a st' v :
  peek st a = Some (st', v) ->
  v = mem_get (mem st) a /\ st_equiv st' st /\
  length (mem st) <= length (mem st') /\
  (a < N.of_nat (length (mem st')))%N /\ (wf st -> wf st').
Proof.
  unfold peek. rewrite vec_get_spec.
  destruct (N.ltb_spec a (N.of_nat (length (mem st)))) as [Ha|Ha].
  - intros [= <- <-]. done.
  - destruct (resize_mem st a) as [s|] eqn:Hr; [|done]. simpl.
    destruct (resize_mem_frame st a s Ha Hr) as (He & Hlen & Hin & Hwf).
    rewrite vec_get_spec. destruct (N.ltb_spec a (N.of_nat (length (mem s)))); [|lia].
    intros [= <- <-]. split; [apply (proj1 He)|]. split; [exact He|]. auto.
Qed.

Lemma peek_total st a :
  (a < MEM_LIMIT)%N -> exists st', peek st a = Some (st', mem_get (mem st) a).
Proof.
  intros Ha. unfold peek. rewrite vec_get_spec.
  destruct (N.ltb_spec a (N.of_nat (length (mem st)))) as [Hin|Hin]; [by eexists|].
  rewrite resize_mem_spec. destruct (N.ltb_spec a MEM_LIMIT); [|lia]. simpl.
  destruct (page_bounds a Ha) as [Hp1 Hp2].
  rewrite vec_get_spec. simpl. rewrite length_resize.
  destruct (N.ltb_spec a (N.of_nat (N.to_nat ((a + PAGE_SIZE) / PAGE_SIZE * PAGE_SIZE)))); [|lia].
  simpl. rewrite mem_get_resize by lia. by eexists.
Qed.

Lemma peek_fail st a :
  wf st -> (MEM_LIMIT <= a)%N -> peek st a = None.
Proof.
  unfold wf. intros Hwf Ha. unfold peek. rewrite vec_get_spec.
  destruct (N.ltb_spec a (N.of_nat (length (mem st)))); [lia|].
  rewrite resize_mem_spec. destruct (N.ltb_spec a MEM_LIMIT); [lia|]. done.
Qed.

(** Everything [poke] does to the machine: store one cell, growing the
    backing vector when needed. *)
Lemma poke_frame st a v st' :
  poke st a v = Some st' ->
  (forall i, mem_get (mem st') i = if decide (i = a) then v else mem_get (mem st) i) /\
  pc st' = pc st /\ relative_base st' = relative_base st /\
  length (mem st) <= length (mem st') /\ (wf st -> wf st').
Proof.
  unfold poke, vec_set.
  destruct (N.ltb_spec a (N.of_nat (length (mem st)))) as [Ha|Ha].
  - intros [= <-]. unfold wf. simpl. rewrite length_insert.
    split; [intros i; by apply mem_get_insert|]. auto.
  - destruct (resize_mem st a) as [s|] eqn:Hr; [|done]. simpl.
    destruct (resize_mem_frame st a s Ha Hr) as ((Hm & Hp & Hrb) & Hlen & Hin & Hwf).
    destruct (N.ltb_spec a (N.of_nat (length (mem s)))); [|lia].
    intros [= <-]. unfold wf in *. simpl. rewrite length_insert.
    split; [|auto]. intros i. rewrite mem_get_insert by done.
    case_decide; [done|]. apply Hm.
Qed.

Lemma poke_total st a v :
  (a < MEM_LIMIT)%N -> exists st', poke st a v = Some st'.
Proof.
  intros Ha. unfold poke, vec_set.
  destruct (N.ltb_spec a (N.of_nat (length (mem st)))) as [Hin|Hin]; [by eexists|].
  rewrite resize_mem_spec. destruct (N.ltb_spec a MEM_LIMIT); [|lia]. simpl.
  destruct (page_bounds a Ha) as [Hp1 Hp2]. rewrite length_resize.
  destruct (N.ltb_spec a (N.of_nat (N.to_nat ((a + PAGE_SIZE) / PAGE_SIZE * PAGE_SIZE)))); [|lia].
  by eexists.
Qed.

Lemma poke_fail st a v :
  wf st -> (MEM_LIMIT <= a)%N -> poke st a v = None.
Proof.
  unfold wf. intros Hwf Ha. unfold poke, vec_set.
  destruct (N.ltb_spec a (N.of_nat (length (mem st)))); [lia|].
  rewrite resize_mem_spec. destruct (N.ltb_spec a MEM_LIMIT); [lia|]. done.
Qed.

Lemma peek_rel s1 s2 a :
  wf s1 -> wf s2 -> st_equiv s1 s2 -> res_rel (peek s1 a) (peek s2 a).
Proof.
  intros Hw1 Hw2 He. destruct (N.lt_ge_cases a MEM_LIMIT) as [Ha|Ha].
  - destruct (peek_total s1 a Ha) as [t1 H1].
    destruct (peek_total s2 a Ha) as [t2 H2].
    destruct (peek_frame _ _ _ _ H1) as (_ & He1 & _ & _ & Hw1').
    destruct (peek_frame _ _ _ _ H2) as (_ & He2 & _ & _ & Hw2').
    rewrite H1, H2. simpl. split; [apply (proj1 He)|].
    split; [|auto]. eapply st_equiv_trans; [exact He1|].
    eapply st_equiv_trans; [exact He|]. by apply st_equiv_sym.
  - by rewrite !peek_fail.
Qed.

Lemma poke_rel_poke s1 s2 a v :
  wf s1 -> wf s2 -> st_equiv s1 s2 -> poke_rel (poke s1 a v) (poke s2 a v).
Proof.
  intros Hw1 Hw2 (Hm & Hp & Hr). destruct (N.lt_ge_cases a MEM_LIMIT) as [Ha|Ha].
  - destruct (poke_total s1 a v Ha) as [t1 H1].
    destruct (poke_total s2 a v Ha) as [t2 H2].
    destruct (poke_frame _ _ _ _ H1) as (Hm1 & Hp1 & Hr1 & _ & Hw1').
    destruct (poke_frame _ _ _ _ H2) as (Hm2 & Hp2 & Hr2 & _ & Hw2').
    rewrite H1, H2. simpl. split; [|auto].
    split; [|split; congruence]. intros i. rewrite Hm1, Hm2, Hm. done.
  - by rewrite !poke_fail.
Qed.

Lemma res_rel_bind {A B} (o1 o2 : option (IntcodeISS * A))
    (f1 f2 : IntcodeISS * A -> option (IntcodeISS * B)) :
  res_rel o1 o2 ->
  (forall s1 s2 x, wf s1 -> wf s2 -> st_equiv s1 s2 -> res_rel (f1 (s1, x)) (f2 (s2, x))) ->
  res_rel (o1 ≫= f1) (o2 ≫= f2).
Proof.
  destruct o1 as [[s1 x1]|], o2 as [[s2 x2]|]; simpl; try done.
  intros (-> & He & Hw1 & Hw2) Hf. by apply Hf.
Qed.

Lemma addr_fetch_eq s1 s2 am v :
  st_equiv s1 s2 -> addr_fetch s1 am v = addr_fetch s2 am v.
Proof. intros (_ & _ & Hr). unfold addr_fetch. by rewrite Hr. Qed.

Lemma fetch_rel s1 s2 am v :
  wf s1 -> wf s2 -> st_equiv s1 s2 -> res_rel (fetch s1 am v) (fetch s2 am v).
Proof.
  intros Hw1 Hw2 He. pose proof He as (_ & _ & Hr). unfold fetch. rewrite Hr.
  repeat case_match; simpl; try destruct (checked_i64 _); simpl;
    first [ by apply peek_rel | exact I | split; [done | split; [exact He | auto]] ].
Qed.

Ltac rel_step :=
  match goal with
  | |- res_rel (peek _ _ ≫= _) (peek _ _ ≫= _) =>
      apply res_rel_bind; [apply peek_rel; assumption|];
      intros ?t1 ?t2 ?x ?Hw1 ?Hw2 ?He; cbv beta iota
  | |- res_rel (fetch _ _ _ ≫= _) (fetch _ _ _ ≫= _) =>
      apply res_rel_bind; [apply fetch_rel; assumption|];
      intros ?t1 ?t2 ?x ?Hw1 ?Hw2 ?He; cbv beta iota
  | He : st_equiv ?a ?b |- res_rel (addr_fetch ?a ?m ?v ≫= _) (addr_fetch ?b ?m ?v ≫= _) =>
      rewrite (addr_fetch_eq a b m v He); destruct (addr_fetch b m v); simpl; [|exact I]
  | He : st_equiv ?a ?b |- res_rel (checked_usize (pc ?a + ?k)%N ≫= _) _ =>
      rewrite (proj1 (proj2 He)); destruct (checked_usize (pc b + k)%N); simpl; [|exact I]
  | He : st_equiv ?a ?b |- res_rel (Some (?a, ?x)) (Some (?b, ?x)) =>
      split; [reflexivity | split; [exact He | split; assumption]]
  | |- ?x = ?x /\ st_equiv _ _ /\ wf _ /\ wf _ =>
      split; [reflexivity | split; [assumption | split; assumption]]
  | |- res_rel None None => exact I
  end.

Lemma decode_rel s1 s2 a :
  wf s1 -> wf s2 -> st_equiv s1 s2 -> res_rel (decode s1 a) (decode s2 a).
Proof.
  intros Hw1 Hw2 He. unfold decode.
  rel_step. destruct (decode_fields x) as [[[md m2] m1] op]. cbv beta iota.
  repeat rel_step. repeat case_match; repeat rel_step.
Qed.

Lemma with_pc_equiv s1 s2 p : st_equiv s1 s2 -> st_equiv (with_pc s1 p) (with_pc s2 p).
Proof. intros (Hm & _ & Hr). done. Qed.

Lemma with_rb_equiv s1 s2 r : st_equiv s1 s2 -> st_equiv (with_rb s1 r) (with_rb s2 r).
Proof. intros (Hm & Hp & _). done. Qed.

Lemma store_rel s1 s2 d v inp len :
  wf s1 -> wf s2 -> st_equiv s1 s2 -> exec_rel (store s1 d v inp len) (store s2 d v inp len).
Proof.
  intros Hw1 Hw2 He. unfold store.
  pose proof (poke_rel_poke s1 s2 d v Hw1 Hw2 He) as Hp.
  destruct (poke s1 d v), (poke s2 d v); simpl in *; tauto.
Qed.

Lemma execute_rel s1 s2 ins inp :
  wf s1 -> wf s2 -> st_equiv s1 s2 -> exec_rel (execute s1 ins inp) (execute s2 ins inp).
Proof.
  intros Hw1 Hw2 He. pose proof He as (_ & _ & Hr).
  destruct ins; simpl; try (intuition auto; fail).
  - destruct (checked_i64 _); [by apply store_rel | done].
  - destruct (checked_i64 _); [by apply store_rel | done].
  - destruct inp; [done | by apply store_rel].
  - by apply store_rel.
  - by apply store_rel.
  - rewrite Hr. destruct (checked_i64 _); [|done].
    split; [done | split; [done | split; [done | split; [by apply with_rb_equiv | done]]]].
Qed.

Lemma step_rel_step s1 s2 inp :
  wf s1 -> wf s2 -> st_equiv s1 s2 -> step_rel (step s1 inp) (step s2 inp).
Proof.
  intros Hw1 Hw2 He. unfold step. rewrite (proj1 (proj2 He)).
  pose proof (decode_rel s1 s2 (pc s2) Hw1 Hw2 He) as Hd.
  destruct (decode s1 _) as [[t1 i1]|], (decode s2 _) as [[t2 i2]|]; simpl in Hd; try done.
  destruct Hd as (<- & He' & Hw1' & Hw2').
  pose proof (execute_rel t1 t2 i1 inp Hw1' Hw2' He') as Hx.
  destruct (execute t1 i1 inp) as [u1 j1 o1 op1| r1 u1 |],
    (execute t2 i1 inp) as [u2 j2 o2 op2| r2 u2 |]; simpl in Hx; try done.
  destruct Hx as (<- & <- & <- & Hu & Hwu1 & Hwu2).
  destruct op1 as [len|a|]; simpl.
  - rewrite (proj1 (proj2 Hu)). destruct (checked_usize _); [|done].
    split; [done | split; [done | split; [by apply with_pc_equiv | done]]].
  - split; [done | split; [done | split; [by apply with_pc_equiv | done]]].
  - done.
Qed.

Lemma compute_loop_rel fuel s1 s2 inp out :
  wf s1 -> wf s2 -> st_equiv s1 s2 ->
  outcome_rel (compute_loop fuel s1 inp out) (compute_loop fuel s2 inp out).
Proof.
  revert s1 s2 inp out. induction fuel as [|fuel IH]; intros s1 s2 inp out Hw1 Hw2 He; simpl; [done|].
  pose proof (step_rel_step s1 s2 inp Hw1 Hw2 He) as Hs.
  destruct (step s1 inp) as [t1 i1 o1| r1 t1 |], (step s2 inp) as [t2 i2 o2| r2 t2 |];
    simpl in Hs; try done.
  - destruct Hs as (<- & <- & Ht & Hwt1 & Hwt2). by apply IH.
  - destruct Hs as (<- & Ht & Hwt1 & Hwt2). done.
Qed.

Lemma extends_refl s : extends s s.
Proof. split; [apply st_equiv_refl | lia]. Qed.

Lemma extends_trans s1 s2 s3 : extends s1 s2 -> extends s2 s3 -> extends s1 s3.
Proof. intros [H1 L1] [H2 L2]. split; [eapply st_equiv_trans; eauto | lia]. Qed.

Lemma peek_extends s a s' v : peek s a = Some (s', v) -> extends s' s.
Proof. intros H. destruct (peek_frame _ _ _ _ H) as (_ & He & Hl & _). by split. Qed.

Lemma peek_stable s a s' v t :
  peek s a = Some (s', v) -> extends t s' -> peek t a = Some (t, v).
Proof.
  intros H [(Hm & _) Hl]. destruct (peek_frame _ _ _ _ H) as (-> & (Hm' & _) & _ & Hin & _).
  rewrite peek_in_range by lia. rewrite Hm, Hm'. done.
Qed.

Ltac inv_bind H :=
  repeat match type of H with
  | (?m ≫= _) = Some _ =>
      let E := fresh "E" in let p := fresh "p" in
      destruct m as [p|] eqn:E; simpl in H; [|discriminate H];
      lazymatch type of p with
      | (_ * _)%type => destruct p; simpl in H
      | _ => idtac
      end
  end.

(** A decoded Input instruction is decoded again, identically and without
    touching the machine, from any later view of the same memory. *)
Lemma decode_get_stable s a s' d :
  decode s a = Some (s', Get d) ->
  extends s' s /\ forall t, extends t s' -> decode t a = Some (t, Get d).
Proof.
  intros H. unfold decode in H.
  inv_bind H.
  repeat (case_match; simpl in H; try discriminate H); inv_bind H; try discriminate H.
  injection H as <- <-. subst.
  pose proof (peek_extends _ _ _ _ E) as X0. pose proof (peek_extends _ _ _ _ E1) as X1.
  pose proof (peek_extends _ _ _ _ E3) as X2. pose proof (peek_extends _ _ _ _ E5) as X3.
  split; [eauto using extends_trans|]. intros t Ht.
  assert (Hpc : forall u, extends t u -> pc t = pc u) by (intros u [(_ & Hp & _) _]; done).
  unfold decode.
  rewrite (peek_stable _ _ _ _ t E) by eauto using extends_trans. simpl.
  rewrite (Hpc i) in * by eauto using extends_trans. rewrite E0. simpl.
  rewrite (peek_stable _ _ _ _ t E1) by eauto using extends_trans. simpl.
  rewrite (Hpc i0) in * by eauto using extends_trans. rewrite E2. simpl.
  rewrite (peek_stable _ _ _ _ t E3) by eauto using extends_trans. simpl.
  rewrite (Hpc i1) in * by eauto using extends_trans. rewrite E4. simpl.
  rewrite (peek_stable _ _ _ _ t E5) by eauto using extends_trans. simpl.
  rewrite H0. simpl. rewrite (addr_fetch_eq t i2) by apply Ht. by rewrite E6.
Qed.

Lemma poke_in_range st a v st' :
  poke st a v = Some st' -> (a < N.of_nat (length (mem st')))%N.
Proof.
  unfold poke, vec_set.
  destruct (N.ltb_spec a (N.of_nat (length (mem st)))) as [Ha|Ha].
  - intros [= <-]. simpl. by rewrite length_insert.
  - destruct (resize_mem st a) as [s|] eqn:Hr; [|done]. simpl.
    destruct (N.ltb_spec a (N.of_nat (length (mem s)))); [|done].
    intros [= <-]. simpl. by rewrite length_insert.
Qed.

Lemma poke_none st a v : poke st a v = None -> (MEM_LIMIT <= a)%N.
Proof.
  intros H. destruct (N.lt_ge_cases a MEM_LIMIT) as [Ha|]; [|done].
  destruct (poke_total st a v Ha) as [st' E]. congruence.
Qed.

Lemma peek_none st a : peek st a = None -> (MEM_LIMIT <= a)%N.
Proof.
  intros H. destruct (N.lt_ge_cases a MEM_LIMIT) as [Ha|]; [|done].
  destruct (peek_total st a Ha) as [st' E]. congruence.
Qed.

Lemma step_need_input s inp s' :
  step s inp = Stop NeedInput s' ->
  inp = [] /\ exists d, decode s (pc s) = Some (s', Get d).
Proof.
  unfold step. destruct (decode s (pc s)) as [[s1 ins]|]; [|done].
  destruct ins; simpl; unfold store; repeat case_match;
    intros Heq; simplify_eq; eauto.
Qed.

Lemma compute_loop_need_input fuel st inp out st' out' :
  compute_loop fuel st inp out = Finished NeedInput st' out' ->
  exists s, step s [] = Stop NeedInput st'.
Proof.
  revert st inp out. induction fuel as [|fuel IH]; intros st inp out; simpl; [done|].
  destruct (step st inp) as [t i o|r t|] eqn:E; [apply IH|intros Heq|done].
  inversion Heq; subst. destruct (step_need_input _ _ _ E) as [-> _]. eauto.
Qed.

(** ** C1 *)

(** C1: when the loop meets an Input instruction with the input sequence
    exhausted, [compute] stops with [NeedInput] and the output gathered so
    far, the machine keeping its pointer, relative base and memory mapping;
    and every [NeedInput] stop leaves the pointer on an Input instruction
    that the next call decodes again, unchanged, and executes with the next
    input value. *)
Theorem compute_need_input_resumable :
  (forall fuel st out st1 d,
     decode st (pc st) = Some (st1, Get d) ->
     compute_loop (S fuel) st [] out = Finished NeedInput st1 out /\
     pc st1 = pc st /\ relative_base st1 = relative_base st /\
     (forall a, mem_get (mem st1) a = mem_get (mem st) a)) /\
  (forall fuel st inp out st' out',
     compute_loop fuel st inp out = Finished NeedInput st' out' ->
     exists d,
       decode st' (pc st') = Some (st', Get d) /\
       step st' [] = Stop NeedInput st' /\
       forall i rest,
         step st' (i :: rest) =
           match poke st' d i with
           | Some s =>
               match checked_usize (pc s + 2) with
               | Some p => Continue (with_pc s p) rest None
               | None => Fault
               end
           | None => Fault
           end).
Proof.
  split.
  - intros fuel st out st1 d Hd. simpl. unfold step. rewrite Hd. simpl.
    destruct (decode_get_stable _ _ _ _ Hd) as [((Hm & Hp & Hr) & _) _]. done.
  - intros fuel st inp out st' out' H.
    destruct (compute_loop_need_input _ _ _ _ _ _ H) as [s Hs].
    destruct (step_need_input _ _ _ Hs) as [_ [d Hd]].
    destruct (decode_get_stable _ _ _ _ Hd) as [Hx Hst].
    pose proof (Hst st' (extends_refl st')) as Hd'.
    assert (Hpc : pc st' = pc s) by apply Hx. rewrite <- Hpc in Hd'.
    exists d. split; [done|]. unfold step. rewrite Hd'. simpl.
    split; [done|]. intros i rest. unfold store.
    destruct (poke st' d i); done.
Qed.

(** Witness: the program [3,0,99] run with no input. *)
Lemma compute_need_input_resumable_witness :
  compute_loop 1 (new [3; 0; 99]%Z) [] [] =
    Finished NeedInput (with_mem (new [3; 0; 99]%Z) (resize 1024 0%Z [3; 0; 99]%Z)) [] /\
  step (with_mem (new [3; 0; 99]%Z) (resize 1024 0%Z [3; 0; 99]%Z)) [7%Z] =
    Continue (with_pc (with_mem (new [3; 0; 99]%Z)
                (<[0 := 7%Z]> (resize 1024 0%Z [3; 0; 99]%Z))) 2) [] None.
Proof.
  split.
  - apply (proj1 compute_need_input_resumable 0 (new [3; 0; 99]%Z) []
             (with_mem (new [3; 0; 99]%Z) (resize 1024 0%Z [3; 0; 99]%Z)) 0%N).
    vm_compute. reflexivity.
  - destruct (proj2 compute_need_input_resumable 1 (new [3; 0; 99]%Z) [] []
                (with_mem (new [3; 0; 99]%Z) (resize 1024 0%Z [3; 0; 99]%Z)) [])
      as [d [Hd [_ Hstep]]]; [vm_compute; reflexivity|].
    rewrite Hstep. vm_compute in Hd. injection Hd as <-. vm_compute. reflexivity.
Defined.


(** ** C6 *)

(** C6: a [poke] of [v] at an address [a] below [MEM_LIMIT] succeeds, also
    beyond the loaded program, and a [peek] at [a] then returns [v]; on a
    machine within the limit, a [poke] at an address of at least
    [MEM_LIMIT] panics (the [Vec] capacity panic, or the [usize] overflow of
    [addr + PAGE_SIZE] near 2^64), so no value is stored there. *)
Theorem poke_then_peek st a v :
  ((a < MEM_LIMIT)%N -> exists st', poke st a v = Some st' /\ peek st' a = Some (st', v)) /\
  (wf st -> (MEM_LIMIT <= a)%N -> poke st a v = None) /\
  (forall st', poke st a v = Some st' -> peek st' a = Some (st', v)).
Proof.
  assert (Hok : forall st', poke st a v = Some st' -> peek st' a = Some (st', v)).
  { intros st' E. rewrite peek_in_range by (eapply poke_in_range; exact E).
    destruct (poke_frame _ _ _ _ E) as (Hm & _). rewrite Hm. by case_decide. }
  split; [|split; [apply poke_fail | exact Hok]].
  intros Ha. destruct (poke_total st a v Ha) as [st' E]. exists st'. auto.
Qed.

(** Witness: on the program [99], a [poke] at 2000 is read back, and a
    [poke] at [MEM_LIMIT] fails. *)
Lemma poke_then_peek_witness :
  (exists st', poke (new [99%Z]) 2000%N 5%Z = Some st' /\ peek st' 2000%N = Some (st', 5%Z)) /\
  poke (new [99%Z]) MEM_LIMIT 5%Z = None.
Proof.
  destruct (poke_then_peek (new [99%Z]) 2000%N 5%Z) as [W1 _].
  destruct (poke_then_peek (new [99%Z]) MEM_LIMIT 5%Z) as (_ & W2 & _).
  split; [apply W1; vm_compute; reflexivity|].
  apply W2; [vm_compute; discriminate | lia].
Defined.

(** Counterexample: [poke] does not store at every address; at [MEM_LIMIT]
    (capacity panic) and at 2^64 - 1 (overflow of [addr + PAGE_SIZE]) it
    panics. *)
Lemma poke_then_peek_counterexample :
  poke (new [99%Z]) MEM_LIMIT 5%Z = None /\ poke (new [99%Z]) (2 ^ 64 - 1)%N 5%Z = None.
Proof. split; vm_compute; reflexivity. Qed.

(** ** C7 *)

Ltac peek_next :=
  match goal with
  | |- context [peek ?s ?a] =>
      let s' := fresh "s" in let E := fresh "E" in
      let Ha := fresh "Ha" in
      assert (Ha : (a < MEM_LIMIT)%N) by (vm_compute; reflexivity);
      destruct (peek_total s a Ha) as [s' E]; clear Ha;
      rewrite E; simpl;
      let He := fresh "He" in let Hl := fresh "Hl" in
      destruct (peek_frame _ _ _ _ E) as (_ & He & Hl & _);
      repeat match goal with
             | H : st_equiv ?x _ |- context [pc ?x] => rewrite (proj1 (proj2 H))
             end
  end.

(** C7: a freshly loaded program made of halt opcodes stops at once with
    [ProgramHalt] and no output, and [peek 0] still gives its first cell. *)
Theorem halt_program_stops c prog fuel inp :
  Forall (fun x => x = 99%Z) (c :: prog) ->
  exists st',
    compute (S fuel) (new (c :: prog)) inp = Finished ProgramHalt st' [] /\
    peek st' 0 = Some (st', c).
Proof.
  intros Hall. apply Forall_cons in Hall as [-> _].
  unfold compute. simpl. unfold step, decode.
  rewrite peek_in_range by (simpl; lia). simpl.
  peek_next. simpl in *. peek_next. simpl in *. peek_next. simpl.
  exists s1. split; [done|].
  rewrite peek_in_range by (simpl in *; lia).
  assert (H0 : mem_get (mem s1) 0 = mem_get (mem (new (99%Z :: prog))) 0).
  { rewrite (proj1 He1), (proj1 He0), (proj1 He). done. }
  rewrite H0. done.
Qed.

(** Witness: the program [99]. *)
Lemma halt_program_stops_witness :
  exists st', compute 1 (new [99%Z]) [] = Finished ProgramHalt st' [] /\
              peek st' 0 = Some (st', 99%Z).
Proof.
  apply (halt_program_stops 99%Z [] 0 []). repeat constructor.
Defined.

(** ** C9 *)

(** C9: [peek] has no observable effect.  On a machine whose backing
    vector is within the limit, a [peek] returns the cell's value, keeps
    the mapping, pointer and relative base, and every later run, [peek] or
    [poke] behaves as on the machine before the [peek]; it only fails (the
    [Vec] capacity panic) for addresses of at least [MEM_LIMIT]. *)
Theorem peek_no_side_effect st a :
  wf st ->
  match peek st a with
  | Some (st', v) =>
      v = mem_get (mem st) a /\ st_equiv st' st /\ wf st' /\
      (forall fuel inp out,
         outcome_rel (compute_loop fuel st' inp out) (compute_loop fuel st inp out)) /\
      (forall b, res_rel (peek st' b) (peek st b)) /\
      (forall b w, poke_rel (poke st' b w) (poke st b w))
  | None => (MEM_LIMIT <= a)%N
  end.
Proof.
  intros Hw. destruct (peek st a) as [[st' v]|] eqn:E; [|by apply (peek_none st a)].
  destruct (peek_frame _ _ _ _ E) as (-> & He & _ & _ & Hw').
  specialize (Hw' Hw).
  split; [done|]. split; [done|]. split; [done|]. split; [|split].
  - intros. by apply compute_loop_rel.
  - intros b. by apply peek_rel.
  - intros b w. by apply poke_rel_poke.
Qed.

(** Witness: [peek 5] on the program [99]. *)
Lemma peek_no_side_effect_witness :
  wf (new [99%Z]) /\
  peek (new [99%Z]) 5 = Some (with_mem (new [99%Z]) (resize 1024 0%Z [99%Z]), 0%Z) /\
  st_equiv (with_mem (new [99%Z]) (resize 1024 0%Z [99%Z])) (new [99%Z]).
Proof.
  assert (Hw : wf (new [99%Z])) by (vm_compute; congruence).
  pose proof (peek_no_side_effect (new [99%Z]) 5 Hw) as H.
  assert (E : peek (new [99%Z]) 5 = Some (with_mem (new [99%Z]) (resize 1024 0%Z [99%Z]), 0%Z))
    by (vm_compute; reflexivity).
  rewrite E in H. destruct H as (_ & He & _).
  split; [exact Hw|]. split; [exact E | exact He].
Defined.

(** ** C10 *)

(** C10: [compute] is deterministic up to the observable state: two
    machines with the same mapping, pointer and relative base, run with the
    same input, stop for the same reason with the same output and again in
    observationally equal states (or both crash, or both run out of fuel). *)
Theorem compute_deterministic fuel s1 s2 inp :
  wf s1 -> wf s2 -> st_equiv s1 s2 ->
  outcome_rel (compute fuel s1 inp) (compute fuel s2 inp).
Proof. intros. unfold compute. by apply compute_loop_rel. Qed.

(** Witness: the program [4,0,99] loaded once as is and once with a
    trailing 0 cell. *)
Lemma compute_deterministic_witness :
  outcome_rel (compute 3 (new [4; 0; 99]%Z) [])
              (compute 3 (new [4; 0; 99; 0]%Z) []).
Proof.
  apply compute_deterministic; [vm_compute; congruence | vm_compute; congruence|].
  split; [|done]. intros a. unfold mem_get. simpl.
  destruct (N.to_nat a) as [|[|[|[|n]]]]; reflexivity.
Defined.

Lemma bind_none_all {A B} (m : option A) (f : A -> option B) :
  (forall x, f x = None) -> (m ≫= f) = None.
Proof. intros H. destruct m; simpl; auto. Qed.

Lemma checked_usize_small n : (n < MEM_LIMIT)%N -> checked_usize n = Some n.
Proof.
  unfold checked_usize, USIZE_LIMIT, MEM_LIMIT. intros H.
  destruct (N.ltb_spec n (2 ^ 64)); [done | lia].
Qed.

Ltac unrecognised_opcode op Hn :=
  destruct op as [|p|p]; try reflexivity;
  repeat (destruct p as [p|p|]; try reflexivity);
  exfalso; apply Hn; simpl; tauto.

(** An instruction word with an unrecognised opcode never decodes. *)
Lemma decode_unrecognised st a :
  ~ In (Z.rem (mem_get (mem st) a) 100) recognised_opcodes -> decode st a = None.
Proof.
  intros Hn. unfold decode.
  destruct (peek st a) as [[s w]|] eqn:E; [|done]. simpl.
  destruct (peek_frame _ _ _ _ E) as (-> & _).
  unfold decode_fields. cbv beta iota.
  remember (Z.rem (mem_get (mem st) a) 100) as op eqn:Hop. clear Hop.
  repeat match goal with
         | |- (_ ≫= _) = None =>
             apply bind_none_all; (intros [? ?] || intros ?); simpl
         end.
  unrecognised_opcode op Hn.
Qed.

Lemma peek_ok s a :
  wf s ->
  match peek s a with
  | Some (s', _) => wf s' /\ relative_base s' = relative_base s /\ (a <? MEM_LIMIT)%N = true
  | None => (a <? MEM_LIMIT)%N = false
  end.
Proof.
  intros Hw. destruct (N.ltb_spec a MEM_LIMIT) as [Ha|Ha].
  - destruct (peek_total s a Ha) as [s' E]. rewrite E.
    destruct (peek_frame _ _ _ _ E) as (_ & (_ & _ & Hr) & _ & _ & Hw'). auto.
  - by rewrite peek_fail.
Qed.

Lemma fetch_ok s rb am v :
  wf s -> relative_base s = rb ->
  match fetch s am v with
  | Some (s', _) => wf s' /\ relative_base s' = rb /\ operand_ok rb am v = true
  | None => operand_ok rb am v = false
  end.
Proof.
  intros Hw <-. unfold fetch, operand_ok.
  destruct am as [|[p|[p|p|]|]|p]; simpl; try done;
    try (destruct (checked_i64 (relative_base s + v)) as [r|]; simpl; [|done]);
    try (split; [done | split; done]);
    match goal with
    | |- context [peek s ?a] =>
        pose proof (peek_ok s a Hw) as H; destruct (peek s a) as [[s' x]|]; done
    end.
Qed.

Lemma addr_fetch_ok s am v :
  match addr_fetch s am v with
  | Some _ => target_ok (relative_base s) am v = true
  | None => target_ok (relative_base s) am v = false
  end.
Proof.
  unfold addr_fetch, target_ok.
  destruct am as [|[p|[p|p|]|]|p]; simpl; try done.
  destruct (checked_i64 (relative_base s + v)); done.
Qed.

Ltac ok_step :=
  repeat match goal with
  | Hr : relative_base ?s = ?rb |- context [addr_fetch ?s ?m ?v] =>
      let E := fresh "E" in
      pose proof (addr_fetch_ok s m v) as E; rewrite Hr in E;
      destruct (addr_fetch s m v); simpl
  | Hw : wf ?s, Hr : relative_base ?s = ?rb |- context [fetch ?s ?m ?v] =>
      let E := fresh "E" in
      pose proof (fetch_ok s rb m v Hw Hr) as E;
      let s' := fresh "s" in let x := fresh "x" in
      destruct (fetch s m v) as [[s' x]|]; [destruct E as (? & ? & E)|]; simpl
  end;
  repeat match goal with
  | H : operand_ok _ _ _ = _ |- _ => (rewrite H || idtac); clear H
  | H : target_ok _ _ _ = _ |- _ => (rewrite H || idtac); clear H
  end;
  simpl.

Ltac close_iff :=
  first [ split; [intros _; reflexivity | intros _; eexists; reflexivity]
        | split; [intros [? Hx]; discriminate Hx | intros Hx; discriminate Hx] ].

(** When the three cells after the pointer exist, decoding succeeds
    exactly when the opcode is recognised and its operands resolve. *)
Lemma decode_ok st :
  wf st -> (pc st + 3 < MEM_LIMIT)%N ->
  (is_Some (decode st (pc st)) <->
   operands_ok (relative_base st) (mem_get (mem st) (pc st))
     (mem_get (mem st) (pc st + 1)) (mem_get (mem st) (pc st + 2))
     (mem_get (mem st) (pc st + 3)) = true).
Proof.
  intros Hw Hpc. unfold decode, operands_ok.
  destruct (peek_total st (pc st)) as [s0 E0]; [lia|]. rewrite E0. simpl.
  destruct (peek_frame _ _ _ _ E0) as (_ & (M0 & P0 & R0) & _ & _ & W0).
  specialize (W0 Hw).
  rewrite P0, checked_usize_small by lia. simpl.
  destruct (peek_total s0 (pc st + 1)) as [s1 E1]; [lia|]. rewrite E1. simpl.
  destruct (peek_frame _ _ _ _ E1) as (_ & (M1 & P1 & R1) & _ & _ & W1).
  specialize (W1 W0).
  rewrite P1, P0, checked_usize_small by lia. simpl.
  destruct (peek_total s1 (pc st + 2)) as [s2 E2]; [lia|]. rewrite E2. simpl.
  destruct (peek_frame _ _ _ _ E2) as (_ & (M2 & P2 & R2) & _ & _ & W2).
  specialize (W2 W1).
  rewrite P2, P1, P0, checked_usize_small by lia. simpl.
  destruct (peek_total s2 (pc st + 3)) as [s3 E3]; [lia|]. rewrite E3. simpl.
  destruct (peek_frame _ _ _ _ E3) as (_ & (M3 & P3 & R3) & _ & _ & W3).
  specialize (W3 W2).
  rewrite ?M2, ?M1, ?M0.
  assert (Rb : relative_base s3 = relative_base st) by congruence.
  clear E0 E1 E2 E3 M0 M1 M2 M3 P0 P1 P2 P3 R0 R1 R2 R3 W0 W1 W2 Hw.
  remember (Z.rem (mem_get (mem st) (pc st)) 100) as op eqn:Hop. clear Hop.
  destruct op as [|p|p]; try close_iff;
    repeat (destruct p as [p|p|]; try close_iff);
    ok_step; close_iff.
Qed.

Lemma rem_100_nonpos w : (w < 0)%Z -> (-100 < Z.rem w 100 <= 0)%Z.
Proof. intros H. Z.to_euclidean_division_equations. lia. Qed.

Lemma nonpos_unrecognised op : (op <= 0)%Z -> ~ In op recognised_opcodes.
Proof. intros H Hin. simpl in Hin. lia. Qed.

(** ** C3 *)

(** Counterexample to C3: for the cell value -199 the decoder's opcode is
    -99 (Rust's [%] truncates), not -199 mod 100 = 1, and the word is
    not decoded at all. *)
Lemma decode_fields_negative_counterexample :
  snd (decode_fields (-199)) = (-99)%Z /\ snd (spec_decode_fields (-199)) = 1%Z /\
  decode (new [-199; 0; 0; 0]%Z) 0 = None.
Proof. split; [|split]; vm_compute; reflexivity. Qed.

(** C3 (amended): for a non-negative cell value the decoder splits the
    word as the specification says (opcode [word mod 100], the modes its
    hundreds, thousands and ten-thousands digits); for a negative value
    the opcode is Rust's truncating remainder, in [(-100, 0]], which is
    never recognised, so the word is not decoded. *)
Theorem decode_fields_digits word :
  ((0 <= word)%Z -> decode_fields word = spec_decode_fields word) /\
  ((word < 0)%Z ->
     (-100 < snd (decode_fields word) <= 0)%Z /\
     forall st a, mem_get (mem st) a = word -> decode st a = None).
Proof.
  split.
  - intros H. unfold decode_fields, spec_decode_fields.
    rewrite !Z.quot_div_nonneg by lia.
    rewrite !Z.rem_mod_nonneg by (try apply Z.div_pos; lia). done.
  - intros H. pose proof (rem_100_nonpos word H) as Hr. simpl. split; [done|].
    intros st a Ha. apply decode_unrecognised. rewrite Ha.
    apply nonpos_unrecognised. lia.
Qed.

(** Witness: the words 1002 and -199. *)
Lemma decode_fields_digits_witness :
  decode_fields 1002%Z = spec_decode_fields 1002%Z /\
  decode (new [-199; 0; 0; 0]%Z) 0 = None.
Proof.
  split.
  - apply (proj1 (decode_fields_digits 1002%Z)). lia.
  - apply (proj2 (proj2 (decode_fields_digits (-199)%Z) ltac:(lia))).
    vm_compute. reflexivity.
Defined.

(** ** C4 *)

Lemma as_addr_negative v :
  (- 2 ^ 63 <= v < 0)%Z -> as_addr v = Z.to_N (v + 2 ^ 64) /\ (MEM_LIMIT <= as_addr v)%N.
Proof.
  intros Hv. unfold as_addr.
  assert (E : (v mod 2 ^ 64 = v + 2 ^ 64)%Z).
  { rewrite (Z.mod_unique v (2 ^ 64) (-1) (v + 2 ^ 64)); lia. }
  rewrite E. split; [done|]. unfold MEM_LIMIT. lia.
Qed.

Lemma checked_i64_in_range z : (- 2 ^ 63 <= z < 2 ^ 63)%Z -> checked_i64 z = Some z.
Proof.
  intros Hz. unfold checked_i64.
  destruct (Z.leb_spec (- 2 ^ 63) z), (Z.ltb_spec z (2 ^ 63)); simpl; try lia. done.
Qed.

(** Counterexample to C4: in [3,-1] the Input target -1 (position mode) is
    wrapped to the address 2^64 - 1, and with no input the run does not
    fail but stops with [NeedInput]. *)
Lemma negative_address_counterexample :
  decode (new [3; -1]%Z) 0 =
    Some (with_mem (new [3; -1]%Z) (resize 1024 0%Z [3; -1]%Z), Get 18446744073709551615%N) /\
  compute 2 (new [3; -1]%Z) [] =
    Finished NeedInput (with_mem (new [3; -1]%Z) (resize 1024 0%Z [3; -1]%Z)) [].
Proof. split; vm_compute; reflexivity. Qed.

(** C4 (amended): a negative effective address [v] (the raw operand in
    position mode, relative base plus operand in relative mode) is wrapped
    by [as Addr] to [v + 2^64], an address beyond any memory a machine can
    have: a read through it fails, and so does a write through it; the
    exception is an Input instruction with no input left, which stops the
    run with [NeedInput] before the write is tried. *)
Theorem negative_address_wraps st am raw v :
  wf st -> (- 2 ^ 63 <= v < 0)%Z ->
  (am = 0%Z /\ v = raw \/ am = 2%Z /\ (relative_base st + raw)%Z = v) ->
  as_addr v = Z.to_N (v + 2 ^ 64) /\ (MEM_LIMIT <= as_addr v)%N /\
  addr_fetch st am raw = Some (as_addr v) /\
  fetch st am raw = None /\
  (forall x inp len, store st (as_addr v) x inp len = ExecFault) /\
  execute st (Get (as_addr v)) [] = ExecBreak NeedInput st /\
  (forall i rest, execute st (Get (as_addr v)) (i :: rest) = ExecFault).
Proof.
  intros Hw Hv Ham. destruct (as_addr_negative v Hv) as [Ea Hl].
  assert (Hs : forall x inp len, store st (as_addr v) x inp len = ExecFault).
  { intros. unfold store. by rewrite poke_fail. }
  split; [done|]. split; [done|].
  split; [|split; [|split; [done|split; [done|]]]].
  - destruct Ham as [[-> <-]|[-> Hr]]; [done|].
    simpl. rewrite Hr, checked_i64_in_range by lia. done.
  - destruct Ham as [[-> <-]|[-> Hr]]; simpl; [by rewrite peek_fail|].
    rewrite Hr, checked_i64_in_range by lia. simpl. by rewrite peek_fail.
  - intros i rest. simpl. apply Hs.
Qed.

(** Witness: relative mode with base 5 and operand -6 on the program [99]. *)
Lemma negative_address_wraps_witness :
  fetch (with_rb (new [99%Z]) 5%Z) 2%Z (-6)%Z = None /\
  execute (with_rb (new [99%Z]) 5%Z) (Get (as_addr (-1))) [] =
    ExecBreak NeedInput (with_rb (new [99%Z]) 5%Z).
Proof.
  destruct (negative_address_wraps (with_rb (new [99%Z]) 5%Z) 2%Z (-6)%Z (-1)%Z)
    as (_ & _ & _ & F & _ & G & _).
  - vm_compute. congruence.
  - lia.
  - right. split; [reflexivity | vm_compute; reflexivity].
  - split; [exact F | exact G].
Defined.

(** ** C5 *)

(** Counterexample to C5: the word 301 has the recognised opcode 1, yet
    it is not decoded (mode 3 is [unimplemented!]). *)
Lemma decode_recognised_counterexample :
  In (Z.rem 301 100) recognised_opcodes /\ decode (new [301; 0; 0; 0]%Z) 0 = None.
Proof. split; [simpl; tauto | vm_compute; reflexivity]. Qed.

(** C5 (amended): an unrecognised opcode is fatal: the word is not
    decoded, the step faults and the run crashes.  A recognised opcode is
    decoded (when the three cells after the pointer exist) exactly when
    its parameter modes are valid and its operands resolve: modes 0, 1, 2
    only, read addresses below [MEM_LIMIT], relative sums without i64
    overflow. *)
Theorem decode_failure_cases :
  (forall st inp out fuel,
     ~ In (Z.rem (mem_get (mem st) (pc st)) 100) recognised_opcodes ->
     decode st (pc st) = None /\ step st inp = Fault /\
     compute_loop (S fuel) st inp out = Crashed) /\
  (forall st,
     wf st -> (pc st + 3 < MEM_LIMIT)%N ->
     (is_Some (decode st (pc st)) <->
      operands_ok (relative_base st) (mem_get (mem st) (pc st))
        (mem_get (mem st) (pc st + 1)) (mem_get (mem st) (pc st + 2))
        (mem_get (mem st) (pc st + 3)) = true)).
Proof.
  split.
  - intros st inp out fuel Hn. pose proof (decode_unrecognised st (pc st) Hn) as Hd.
    split; [done|]. unfold step. rewrite Hd. split; [done|]. simpl. unfold step. by rewrite Hd.
  - intros st Hw Hpc. by apply decode_ok.
Qed.

(** Witness: the unrecognised word 42 and the word 1101 (an addition of
    two immediates). *)
Lemma decode_failure_cases_witness :
  compute_loop 1 (new [42%Z]) [] [] = Crashed /\
  is_Some (decode (new [1101; 2; 3; 0]%Z) 0).
Proof.
  split.
  - apply (proj1 decode_failure_cases (new [42%Z]) [] [] 0).
    vm_compute. intros Hin.
    repeat (destruct Hin as [Hin|Hin]; [discriminate Hin|]). exact Hin.
  - apply (proj2 decode_failure_cases (new [1101; 2; 3; 0]%Z));
      [vm_compute; congruence | vm_compute; reflexivity | vm_compute; reflexivity].
Defined.

(** ** Further properties of [compute] *)

Lemma compute_loop_prepend fuel s inp out r s' out' o :
  compute_loop fuel s inp out = Finished r s' out' ->
  compute_loop fuel s inp (o ++ out) = Finished r s' (o ++ out').
Proof.
  revert s inp out. induction fuel as [|fuel IH]; intros s inp out; simpl; [done|].
  destruct (step s inp) as [t i [v|]| r' t |]; try done.
  - intros H. rewrite <- app_assoc. by apply IH.
  - by apply IH.
  - by intros [= -> -> ->].
Qed.

Lemma execute_app_input s ins inp inp' s' o op rest :
  execute s ins inp = ExecOp s' inp' o op ->
  execute s ins (inp ++ rest) = ExecOp s' (inp' ++ rest) o op.
Proof.
  intros Hx. destruct ins; simpl in *; unfold store in *; try (destruct inp; simpl in * );
    repeat case_match; simplify_eq; done.
Qed.

Lemma step_app_input s inp s' inp' o rest :
  step s inp = Continue s' inp' o -> step s (inp ++ rest) = Continue s' (inp' ++ rest) o.
Proof.
  unfold step. destruct (decode s (pc s)) as [[s1 ins]|]; [|done].
  destruct (execute s1 ins inp) as [s2 i2 o2 op| |] eqn:E; try done.
  rewrite (execute_app_input _ _ _ _ _ _ _ _ E).
  intros Hx. destruct op; try case_match; simplify_eq; done.
Qed.

(** Stopping for input leaves a machine whose next step is the one the
    stopped step would have taken with input. *)
Lemma step_need_input_same s s' d inp :
  decode s (pc s) = Some (s', Get d) -> step s inp = step s' inp.
Proof.
  intros Hd. destruct (decode_get_stable _ _ _ _ Hd) as [[(_ & Hp & _) _] Hst].
  pose proof (Hst s' (extends_refl s')) as Hd'.
  unfold step. rewrite Hp, Hd, Hd'. done.
Qed.

Lemma compute_loop_resume f1 st i1 out st' out1 i2 f2 :
  compute_loop f1 st i1 out = Finished NeedInput st' out1 ->
  exists f, compute_loop f st (i1 ++ i2) out = compute_loop f2 st' i2 out1.
Proof.
  revert st i1 out. induction f1 as [|f1 IH]; intros st i1 out; simpl; [done|].
  destruct (step st i1) as [t i o| r t |] eqn:E; try done.
  - intros H. destruct (IH _ _ _ H) as [f Hf]. exists (S f). simpl.
    by rewrite (step_app_input _ _ _ _ _ _ E).
  - intros [= -> <- <-]. destruct (step_need_input _ _ _ E) as [-> [d Hd]].
    exists f2. simpl. destruct f2 as [|f2]; [done|]. simpl.
    by rewrite (step_need_input_same _ _ _ i2 Hd).
Qed.

(** Decoding [Halt] is stable under later views of the same memory. *)
Lemma decode_halt_stable s a s' :
  decode s a = Some (s', Halt) ->
  extends s' s /\ forall t, extends t s' -> decode t a = Some (t, Halt).
Proof.
  intros H. unfold decode in H.
  inv_bind H.
  repeat (case_match; simpl in H; try discriminate H); inv_bind H; try discriminate H.
  injection H as <-. subst.
  pose proof (peek_extends _ _ _ _ E) as X0. pose proof (peek_extends _ _ _ _ E1) as X1.
  pose proof (peek_extends _ _ _ _ E3) as X2. pose proof (peek_extends _ _ _ _ E5) as X3.
  split; [eauto using extends_trans|]. intros t Ht.
  assert (Hpc : forall u, extends t u -> pc t = pc u) by (intros u [(_ & Hp & _) _]; done).
  unfold decode.
  rewrite (peek_stable _ _ _ _ t E) by eauto using extends_trans. simpl.
  rewrite (Hpc i) in * by eauto using extends_trans. rewrite E0. simpl.
  rewrite (peek_stable _ _ _ _ t E1) by eauto using extends_trans. simpl.
  rewrite (Hpc i0) in * by eauto using extends_trans. rewrite E2. simpl.
  rewrite (peek_stable _ _ _ _ t E3) by eauto using extends_trans. simpl.
  rewrite (Hpc i1) in * by eauto using extends_trans. rewrite E4. simpl.
  rewrite (peek_stable _ _ _ _ t E5) by eauto using extends_trans. simpl.
  by rewrite H0.
Qed.

Lemma step_halt s inp s' :
  step s inp = Stop ProgramHalt s' -> decode s (pc s) = Some (s', Halt).
Proof.
  unfold step. destruct (decode s (pc s)) as [[s1 ins]|]; [|done].
  destruct ins; simpl; unfold store; repeat case_match; intros Heq; simplify_eq; done.
Qed.

Lemma compute_loop_halt fuel st inp out st' out' :
  compute_loop fuel st inp out = Finished ProgramHalt st' out' ->
  exists s i, step s i = Stop ProgramHalt st'.
Proof.
  revert st inp out. induction fuel as [|fuel IH]; intros st inp out; simpl; [done|].
  destruct (step st inp) as [t i o|r t|] eqn:E; [apply IH|intros Heq|done].
  inversion Heq; subst. eauto.
Qed.

Lemma fetch_frame s am v s' x :
  fetch s am v = Some (s', x) ->
  length (mem s) <= length (mem s') /\ (wf s -> wf s').
Proof.
  unfold fetch. intros H. repeat case_match; simplify_eq; try (split; [lia | done]);
    try (destruct (checked_i64 _); simpl in H; [|done]);
    destruct (peek_frame _ _ _ _ H) as (_ & _ & Hl & _ & Hw); auto.
Qed.

Ltac frames :=
  repeat match goal with
  | E : peek _ _ = Some (_, _) |- _ =>
      let Hl := fresh "Hl" in let Hw := fresh "Hw" in
      destruct (peek_frame _ _ _ _ E) as (_ & _ & Hl & _ & Hw); clear E
  | E : fetch _ _ _ = Some (_, _) |- _ =>
      let Hl := fresh "Hl" in let Hw := fresh "Hw" in
      destruct (fetch_frame _ _ _ _ _ E) as (Hl & Hw); clear E
  end.

Lemma decode_frame s a s' ins :
  decode s a = Some (s', ins) ->
  length (mem s) <= length (mem s') /\ (wf s -> wf s').
Proof.
  intros H. unfold decode in H. inv_bind H.
  repeat (case_match; simpl in H; try discriminate H); inv_bind H; try discriminate H.
  all: injection H as <- <-; frames; split; [lia | tauto].
Qed.

Lemma execute_frame s ins inp :
  match execute s ins inp with
  | ExecOp s' _ _ _ => length (mem s) <= length (mem s') /\ (wf s -> wf s')
  | ExecBreak _ s' => s' = s
  | ExecFault => True
  end.
Proof.
  assert (Hs : forall d v i len, match store s d v i len with
    | ExecOp s' _ _ _ => length (mem s) <= length (mem s') /\ (wf s -> wf s')
    | ExecBreak _ s' => s' = s | ExecFault => True end).
  { intros. unfold store. destruct (poke s d v) eqn:E; [|done].
    destruct (poke_frame _ _ _ _ E) as (_ & _ & _ & Hl & Hw). auto. }
  destruct ins; simpl;
    repeat match goal with
    | |- context [checked_i64 ?e] => destruct (checked_i64 e)
    | |- context [match inp with [] => _ | _ :: _ => _ end] => destruct inp
    end; try apply Hs; try done; split; simpl; auto.
Qed.

Lemma step_frame s inp :
  match step s inp with
  | Continue s' _ _ | Stop _ s' => length (mem s) <= length (mem s') /\ (wf s -> wf s')
  | Fault => True
  end.
Proof.
  unfold step. destruct (decode s (pc s)) as [[s1 ins]|] eqn:Ed; [|done].
  destruct (decode_frame _ _ _ _ Ed) as [Hl Hw].
  pose proof (execute_frame s1 ins inp) as Hx.
  destruct (execute s1 ins inp) as [s2 i2 o2 op|r s2|]; [|subst; auto|done].
  destruct Hx as [Hl' Hw'].
  destruct op as [len|a|]; [destruct (checked_usize (pc s2 + len)); [|done]| |].
  all: unfold with_pc, wf in *; simpl; split; [lia | tauto].
Qed.

(** Growth of the backing vector, the [wf] bound and the output along a run. *)
Lemma compute_loop_frame fuel s inp out r s' out' :
  compute_loop fuel s inp out = Finished r s' out' ->
  length (mem s) <= length (mem s') /\ (wf s -> wf s') /\ exists o, out' = out ++ o.
Proof.
  revert s inp out. induction fuel as [|fuel IH]; intros s inp out; simpl; [done|].
  pose proof (step_frame s inp) as Hf.
  destruct (step s inp) as [t i o| r' t |]; try done.
  - intros H. destruct (IH _ _ _ H) as (Hl & Hw & [o' ->]). destruct Hf as [Hl' Hw'].
    split; [lia|]. split; [auto|].
    destruct o as [v|]; [exists ([v] ++ o'); by rewrite app_assoc | by exists o'].
  - intros [= -> -> ->]. destruct Hf. split; [lia|]. split; [auto|]. exists []. by rewrite app_nil_r.
Qed.
(** ** The mapping along a run *)








(** ** C2 *)





(** ** Runs of [compute] *)

(** Splitting the input of a run across two calls: a run that stops with
    [NeedInput] and is then resumed on further input reaches the same
    final state, with the two outputs concatenated, as one run on the
    concatenated input. *)
Theorem compute_split_input f1 st i1 st' o1 f2 i2 r st'' o2 :
  compute f1 st i1 = Finished NeedInput st' o1 ->
  compute f2 st' i2 = Finished r st'' o2 ->
  exists f, compute f st (i1 ++ i2) = Finished r st'' (o1 ++ o2).
Proof.
  unfold compute. intros H1 H2.
  destruct (compute_loop_resume f1 st i1 [] st' o1 i2 f2 H1) as [f Hf].
  exists f. rewrite Hf.
  pose proof (compute_loop_prepend f2 st' i2 [] r st'' o2 o1 H2) as H.
  by rewrite app_nil_r in H.
Qed.

(** Witness: [3,0,4,0,99] run first with no input, then with [7]. *)
Lemma compute_split_input_witness :
  compute 1 (new [3; 0; 4; 0; 99]%Z) [] = Finished NeedInput (new [3; 0; 4; 0; 99]%Z) [] /\
  compute 5 (new [3; 0; 4; 0; 99]%Z) [7%Z] =
    Finished ProgramHalt
      {| mem := resize 1024 0%Z [7; 0; 4; 0; 99]%Z; pc := 4; relative_base := 0 |} [7%Z] /\
  exists f, compute f (new [3; 0; 4; 0; 99]%Z) ([] ++ [7%Z]) =
    Finished ProgramHalt
      {| mem := resize 1024 0%Z [7; 0; 4; 0; 99]%Z; pc := 4; relative_base := 0 |} ([] ++ [7%Z]).
Proof.
  assert (H1 : compute 1 (new [3; 0; 4; 0; 99]%Z) [] =
                 Finished NeedInput (new [3; 0; 4; 0; 99]%Z) []) by (vm_compute; reflexivity).
  assert (H2 : compute 5 (new [3; 0; 4; 0; 99]%Z) [7%Z] =
    Finished ProgramHalt
      {| mem := resize 1024 0%Z [7; 0; 4; 0; 99]%Z; pc := 4; relative_base := 0 |} [7%Z])
    by (vm_compute; reflexivity).
  split; [exact H1|]. split; [exact H2|].
  exact (compute_split_input 1 _ [] _ [] 5 [7%Z] _ _ _ H1 H2).
Defined.

(** After a run that stops at the Halt opcode, every later call on the
    returned machine stops at once with [ProgramHalt], the machine
    unchanged and no output, whatever the input. *)
Theorem compute_halt_sticky fuel st inp st' out :
  compute fuel st inp = Finished ProgramHalt st' out ->
  forall fuel' inp', compute (S fuel') st' inp' = Finished ProgramHalt st' [].
Proof.
  unfold compute. intros H fuel' inp'.
  destruct (compute_loop_halt _ _ _ _ _ _ H) as (s & i & Hs).
  pose proof (step_halt _ _ _ Hs) as Hd.
  destruct (decode_halt_stable _ _ _ Hd) as [Hext Hall].
  assert (Hpc : pc st' = pc s) by apply (proj1 (proj2 (proj1 Hext))).
  simpl. unfold step. rewrite Hpc, (Hall st' (extends_refl st')). reflexivity.
Qed.

(** Witness: [1101,2,3,5,99,0] halts after one addition. *)
Lemma compute_halt_sticky_witness :
  compute 2 (new [1101; 2; 3; 5; 99; 0]%Z) [] =
    Finished ProgramHalt {| mem := resize 1024 0%Z [1101; 2; 3; 5; 99; 5]%Z; pc := 4; relative_base := 0 |} [] /\
  compute 1 {| mem := resize 1024 0%Z [1101; 2; 3; 5; 99; 5]%Z; pc := 4; relative_base := 0 |} [1%Z; 2%Z] =
    Finished ProgramHalt {| mem := resize 1024 0%Z [1101; 2; 3; 5; 99; 5]%Z; pc := 4; relative_base := 0 |} [].
Proof.
  assert (H : compute 2 (new [1101; 2; 3; 5; 99; 0]%Z) [] =
    Finished ProgramHalt {| mem := resize 1024 0%Z [1101; 2; 3; 5; 99; 5]%Z; pc := 4; relative_base := 0 |} [])
    by (vm_compute; reflexivity).
  split; [exact H|]. exact (compute_halt_sticky _ _ _ _ _ H 0 [1%Z; 2%Z]).
Defined.

(** A run never shrinks the backing vector, and from a machine whose
    vector is within [MEM_LIMIT] cells it ends in one that still is:
    memory growth is bounded whatever the program does. *)
Theorem compute_memory_frame fuel st inp r st' out :
  compute fuel st inp = Finished r st' out ->
  length (mem st) <= length (mem st') /\ (wf st -> wf st').
Proof.
  unfold compute. intros H.
  destruct (compute_loop_frame _ _ _ _ _ _ _ H) as (Hl & Hw & _). by split.
Qed.

(** Witness: [3,0,4,0,99] on input [7] grows its vector to 1024 cells. *)
Lemma compute_memory_frame_witness :
  compute 5 (new [3; 0; 4; 0; 99]%Z) [7%Z] =
    Finished ProgramHalt
      {| mem := resize 1024 0%Z [7; 0; 4; 0; 99]%Z; pc := 4; relative_base := 0 |} [7%Z] /\
  5 <= 1024 /\ (wf (new [3; 0; 4; 0; 99]%Z) -> wf
      {| mem := resize 1024 0%Z [7; 0; 4; 0; 99]%Z; pc := 4; relative_base := 0 |}).
Proof.
  assert (H : compute 5 (new [3; 0; 4; 0; 99]%Z) [7%Z] =
    Finished ProgramHalt
      {| mem := resize 1024 0%Z [7; 0; 4; 0; 99]%Z; pc := 4; relative_base := 0 |} [7%Z])
    by (vm_compute; reflexivity).
  split; [exact H|]. exact (compute_memory_frame _ _ _ _ _ _ H).
Defined.

(** Execution that reaches an address past the end of the backing vector
    crashes: the cell reads as 0, which is no opcode. *)
Theorem compute_past_end_crashes fuel st inp :
  (N.of_nat (length (mem st)) <= pc st)%N -> compute (S fuel) st inp = Crashed.
Proof.
  intros Hpc. unfold compute. simpl. unfold step.
  rewrite decode_unrecognised; [done|].
  unfold mem_get. rewrite lookup_ge_None_2 by lia. simpl. intros H.
  repeat (destruct H as [H|H]; [discriminate H|]). exact H.
Qed.

(** Witness: the program [4,0] started at address 2. *)
Lemma compute_past_end_crashes_witness :
  (N.of_nat (length (mem (with_pc (new [4; 0]%Z) 2))) <= pc (with_pc (new [4; 0]%Z) 2))%N /\
  compute 1 (with_pc (new [4; 0]%Z) 2) [] = Crashed.
Proof.
  assert (H : (N.of_nat (length (mem (with_pc (new [4; 0]%Z) 2))) <=
               pc (with_pc (new [4; 0]%Z) 2))%N)
    by (vm_compute; discriminate).
  split; [exact H|]. exact (compute_past_end_crashes 0 _ [] H).
Defined.
End Day9Proofs.

Module Day7Proofs.
Import Day7.

Lemma init_chain_spec fuel amp_sw phases x y chain given fin chain' given' :
  init_chain fuel amp_sw phases [x; y] chain given = Some (fin, chain', given') ->
  exists g, given' = given ++ g /\ length g = length phases /\
    (forall p, phases !! 0 = Some p -> g !! 0 = Some [p; y]) /\
    (forall k inp p, g !! k = Some inp -> phases !! S k = Some p ->
       exists r st o rest, compute fuel (new amp_sw) inp = Finished r st (o :: rest) /\
                           g !! S k = Some [p; o]).
Proof.
  revert x y chain given. induction phases as [|p ps IH]; intros x y chain given H; simpl in H.
  - injection H as <- <- <-. exists []. rewrite app_nil_r. split; [done|].
    split; [done|]. split; [done|]. intros k inp p Hk. done.
  - destruct (compute fuel (new amp_sw) [p; y]) as [r st output| |] eqn:Ec; try done.
    destruct output as [|o rest]; simpl in H; [done|].
    destruct (IH p o _ _ H) as (g & -> & Hl & H0 & HS).
    exists ([p; y] :: g). split; [by rewrite <- app_assoc|].
    split; [simpl; by rewrite Hl|]. split; [by intros p' [= <-]|].
    intros [|k] inp p' Hk Hp; simpl in Hk, Hp |- *.
    + injection Hk as <-. exists r, st, o, rest. split; [done|]. by apply H0.
    + by apply (HS k inp p').
Qed.

(** ** C8 *)

(** Counterexample to C8: on the program of [test_example_amp1_loopback]
    with phase settings [9,8,7,6,5], the second machine of the
    initialisation is run on [8, 5], not on [8, 0]. *)
Lemma init_chain_counterexample :
  option_map (fun '(_, _, given) => given)
    (eval_amp_chain_init 30 example_amp1_loopback [9; 8; 7; 6; 5]%Z) =
  Some [[9; 0]; [8; 5]; [7; 14]; [6; 31]; [5; 64]]%Z.
Proof. vm_compute. reflexivity. Qed.

(** C8 (amended): in the initialisation phase every machine is run on a
    two-value input whose first value is its phase setting; the second
    value is 0 for the first machine only, and for each later machine it
    is the first output of the machine before it. *)
Theorem init_chain_inputs fuel amp_sw phases fin chain given :
  eval_amp_chain_init fuel amp_sw phases = Some (fin, chain, given) ->
  length given = length phases /\
  (forall p, phases !! 0 = Some p -> given !! 0 = Some [p; 0%Z]) /\
  (forall k inp p, given !! k = Some inp -> phases !! S k = Some p ->
     exists r st o rest, compute fuel (new amp_sw) inp = Finished r st (o :: rest) /\
                         given !! S k = Some [p; o]).
Proof.
  unfold eval_amp_chain_init. intros H.
  destruct (init_chain_spec _ _ _ _ _ _ _ _ _ _ H) as (g & -> & Hl & H0 & HS).
  simpl. done.
Qed.

(** Witness: the program of [test_example_amp1_loopback] with phase
    settings [9,8,7,6,5]. *)
Lemma init_chain_inputs_witness :
  exists fin chain given,
    eval_amp_chain_init 30 example_amp1_loopback [9; 8; 7; 6; 5]%Z = Some (fin, chain, given) /\
    given !! 0 = Some [9; 0]%Z /\ length given = 5.
Proof.
  destruct (eval_amp_chain_init 30 example_amp1_loopback [9; 8; 7; 6; 5]%Z)
    as [[[fin chain] given]|] eqn:E; [|vm_compute in E; discriminate E].
  destruct (init_chain_inputs _ _ _ _ _ _ E) as (Hl & H0 & _).
  exists fin, chain, given. split; [reflexivity|]. split; [by apply H0|]. exact Hl.
Defined.


(** ** gen_combinations *)

Lemma rev_seq_S k : rev (seq 0 (S k)) = k :: rev (seq 0 k).
Proof. by rewrite seq_S, rev_app_distr. Qed.

Lemma vec_pop_snoc l x : vec_pop (l ++ [x]) = Some (l, x).
Proof. unfold vec_pop. by rewrite last_snoc, removelast_last. Qed.

Lemma map_snoc_NoDup (a : Value) (r : list (list Value)) :
  NoDup r -> NoDup (map (fun c => c ++ [a]) r).
Proof.
  induction 1 as [|c r Hc Hr IH]; simpl; constructor; [|done].
  intros Hin. apply list_elem_of_In, in_map_iff in Hin as (c' & Heq & Hin).
  apply app_inv_tail in Heq. subst. by apply Hc, list_elem_of_In.
Qed.

Lemma last_map_snoc (a : Value) r z :
  z ∈ map (fun c => c ++ [a]) r -> exists c, c ∈ r /\ z = c ++ [a].
Proof.
  rewrite !list_elem_of_In. intros (c & <- & Hc)%in_map_iff. exists c.
  by rewrite list_elem_of_In.
Qed.

Section CombineLoop.
Variable gen : list Value -> option (list (list Value)).
Variable len : nat.
Variable orig : list Value.
Hypothesis Hlen : length orig = len.
Hypothesis H2 : 2 <= len.
Hypothesis Hgen : forall l, length l = len - 1 -> exists r, gen l = Some r /\ gen_spec l r.

Lemma combine_loop_spec k :
  forall cur acc, k <= len -> length cur = len -> cur ≡ₚ orig ->
  (forall j, j < k -> cur !! j = orig !! j) ->
  exists r, combine_loop gen len (rev (seq 0 k)) cur acc = Some (acc ++ r) /\
    length r = k * fact (len - 1) /\
    (forall z, z ∈ r -> z ≡ₚ orig /\ exists j, j < k /\ last z = orig !! j) /\
    (NoDup orig -> NoDup r) /\
    (forall z, z ≡ₚ orig -> (exists j, j < k /\ last z = orig !! j) -> z ∈ r).
Proof using Hlen H2 Hgen.
  induction k as [|k IH]; intros cur acc Hk Hl Hp Hj.
  { exists []. rewrite app_nil_r. split; [done|]. split; [done|].
    split; [intros z Hz; by apply elem_of_nil in Hz|].
    split; [constructor|]. intros z _ (j & ? & _). lia. }
  rewrite rev_seq_S. simpl.
  destruct (lookup_lt_is_Some_2 cur k) as [a Ha]; [lia|].
  destruct (lookup_lt_is_Some_2 cur (len - 1)) as [b Hb]; [lia|].
  assert (Hak : orig !! k = Some a) by (rewrite <- Hj; [done | lia]).
  unfold vec_swap. rewrite Ha, Hb. simpl.
  set (sw := <[k:=b]> (<[len - 1:=a]> cur)).
  assert (Hsw_len : length sw = len) by (unfold sw; by rewrite !length_insert).
  assert (Hsw_last : sw !! (len - 1) = Some a).
  { unfold sw. destruct (decide (k = len - 1)) as [->|Hne].
    - rewrite list_lookup_insert_eq by (rewrite length_insert; lia). congruence.
    - rewrite list_lookup_insert_ne by done. apply list_lookup_insert_eq. lia. }
  assert (Hsw_perm : sw ≡ₚ orig).
  { unfold sw. rewrite Permutation_insert_swap by eauto. done. }
  assert (Hsw_pre : forall j, j < k -> sw !! j = orig !! j).
  { intros j Hjk. unfold sw. rewrite !list_lookup_insert_ne by lia. apply Hj. lia. }
  assert (Hsplit : exists rest, sw = rest ++ [a]).
  { apply last_Some. by rewrite last_lookup, Hsw_len, <- Nat.sub_1_r. }
  destruct Hsplit as [rest Hrest]. rewrite Hrest, vec_pop_snoc. simpl.
  assert (Hrest_len : length rest = len - 1).
  { rewrite Hrest, length_app in Hsw_len. simpl in Hsw_len. lia. }
  destruct (Hgen rest Hrest_len) as (r0 & Hr0 & Hlen0 & Hperm0 & Hnd0 & Hcomp0).
  rewrite Hr0. simpl.
  rewrite Hrest in Hsw_perm, Hsw_pre.
  destruct (IH (rest ++ [a]) (acc ++ map (fun comb => comb ++ [a]) r0))
    as (r1 & Hr1 & Hl1 & Hm1 & Hnd1 & Hc1);
    [lia | by rewrite <- Hrest | done | done |].
  exists (map (fun comb => comb ++ [a]) r0 ++ r1).
  rewrite Hr1, <- app_assoc. split; [done|].
  assert (Hrest1 : rest <> []) by (intros ->; simpl in Hrest_len; lia).
  assert (Hf0 : length r0 = fact (len - 1)).
  { rewrite Hlen0. destruct rest; [done | by rewrite Hrest_len]. }
  split; [rewrite length_app, length_map, Hf0, Hl1; simpl; lia|].
  split.
  { intros z [Hz | Hz]%elem_of_app.
    - destruct (last_map_snoc _ _ _ Hz) as (c & Hc & ->).
      split; [rewrite <- Hsw_perm; by apply Permutation_app_tail, Hperm0|].
      exists k. split; [lia|]. by rewrite last_snoc.
    - destruct (Hm1 z Hz) as [Hzp (j & Hjk & Hjz)]. split; [done|].
      exists j. split; [lia | done]. }
  split.
  { intros Hnd. apply NoDup_app. split; [|split].
    - apply map_snoc_NoDup, Hnd0.
      rewrite <- Hsw_perm in Hnd. by apply NoDup_app in Hnd as [? _].
    - intros z Hz Hz1.
      destruct (last_map_snoc _ _ _ Hz) as (c & _ & ->).
      destruct (Hm1 _ Hz1) as [_ (j & Hjk & Hjz)].
      rewrite last_snoc in Hjz.
      assert (j = k) by (eapply NoDup_lookup; eauto). lia.
    - by apply Hnd1. }
  intros z Hz (j & Hjk & Hjz).
  destruct (decide (j = k)) as [->|Hne].
  - apply elem_of_app. left.
    rewrite Hak in Hjz. apply last_Some in Hjz as [z' ->].
    rewrite list_elem_of_In, in_map_iff. exists z'. split; [done|].
    apply list_elem_of_In, Hcomp0; [done|].
    apply (Permutation_app_inv_r [a]). by rewrite Hsw_perm.
  - apply elem_of_app. right. apply Hc1; [done|]. exists j. split; [lia | done].
Qed.

End CombineLoop.

Lemma gen_aux_spec n :
  forall l, length l = n -> exists r, gen_aux n l = Some r /\ gen_spec l r.
Proof.
  induction n as [|n IH]; intros l Hl.
  - destruct l; [|done]. exists []. split; [done|].
    split; [done|]. split; [intros z Hz; by apply elem_of_nil in Hz|].
    split; [constructor | done].
  - simpl. destruct (decide (length l = 1)) as [H1|H1].
    + exists [l]. split; [done|]. destruct l as [|x [|y l]]; try done.
      split; [done|]. split; [intros z ->%list_elem_of_singleton; done|].
      split; [intros _; apply NoDup_singleton|].
      intros _ z ->%Permutation_singleton_r. by apply list_elem_of_singleton.
    + destruct (combine_loop_spec (gen_aux n) (length l) l eq_refl ltac:(lia)
                  ltac:(intros l' Hl'; apply IH; lia) (length l) l [])
        as (r & Hr & Hlr & Hm & Hnd & Hc); [lia | done | done | done |].
      exists r. split; [done|].
      split; [destruct l as [|x l]; [done|]; rewrite Hlr; simpl in *;
              by replace (length l - 0) with (length l) by lia|].
      split; [intros z Hz; apply Hm, Hz|].
      split; [done|].
      intros Hne z Hz. apply Hc; [done|].
      destruct (last z) as [y|] eqn:Hy.
      * apply last_Some_elem_of in Hy. rewrite Hz in Hy.
        apply list_elem_of_lookup in Hy as [j Hj].
        exists j. split; [by eapply lookup_lt_Some | done].
      * apply last_None in Hy. subst z. apply Permutation_nil in Hz. done.
Qed.

Lemma combine_loop_acc gen len idx :
  forall cur acc res, combine_loop gen len idx cur acc = Some res -> exists r, res = acc ++ r.
Proof.
  induction idx as [|i idx IH]; intros cur acc res; simpl.
  - intros [= <-]. exists []. by rewrite app_nil_r.
  - intros H. Day9Proofs.inv_bind H.
    destruct (IH _ _ _ H) as [r ->]. eexists. by rewrite <- app_assoc.
Qed.

Lemma gen_aux_head n :
  forall l r, length l = n -> l <> [] -> gen_aux n l = Some r -> head r = Some l.
Proof.
  induction n as [|n IH]; intros l r Hl Hne; [by destruct l|].
  simpl. destruct (decide (length l = 1)) as [H1|H1]; [by intros [= <-]|].
  rewrite Hl, rev_seq_S. simpl.
  destruct (lookup_lt_is_Some_2 l n) as [a Ha]; [lia|].
  unfold vec_swap. rewrite Nat.sub_0_r, Ha. simpl. rewrite !(list_insert_id l n a) by done.
  assert (Hsplit : exists rest, l = rest ++ [a]).
  { apply last_Some. by rewrite last_lookup, Hl. }
  destruct Hsplit as [rest ->]. rewrite vec_pop_snoc. simpl.
  rewrite length_app in Hl. simpl in Hl.
  destruct (gen_aux n rest) as [r0|] eqn:Hr0; [simpl|done].
  intros H. destruct (combine_loop_acc _ _ _ _ _ _ H) as [r1 ->].
  assert (Hne' : rest <> []) by (intros ->; by apply H1).
  pose proof (IH rest r0 ltac:(lia) Hne' Hr0) as Hh.
  destruct r0 as [|c r0]; [done|]. simpl in Hh |- *. by injection Hh as ->.
Qed.

(** The first list returned by [gen_combinations] on a non-empty input is
    the input itself. *)
Theorem gen_combinations_first input r :
  input <> [] -> gen_combinations input = Some r -> head r = Some input.
Proof. intros Hne H. exact (gen_aux_head _ input r eq_refl Hne H). Qed.

(** Witness: [[0,1,2]]. *)
Lemma gen_combinations_first_witness :
  gen_combinations [0; 1; 2]%Z =
    Some [[0; 1; 2]; [1; 0; 2]; [0; 2; 1]; [2; 0; 1]; [1; 2; 0]; [2; 1; 0]]%Z /\
  head [[0; 1; 2]; [1; 0; 2]; [0; 2; 1]; [2; 0; 1]; [1; 2; 0]; [2; 1; 0]]%Z = Some [0; 1; 2]%Z.
Proof.
  assert (Hne : [0; 1; 2]%Z <> []) by discriminate.
  assert (H : gen_combinations [0; 1; 2]%Z =
    Some [[0; 1; 2]; [1; 0; 2]; [0; 2; 1]; [2; 0; 1]; [1; 2; 0]; [2; 1; 0]]%Z)
    by (vm_compute; reflexivity).
  split; [exact H|]. exact (gen_combinations_first _ _ Hne H).
Defined.

(** [gen_combinations] never panics (every swap and pop is in bounds) and
    returns [n!] lists for an input of length [n >= 1], none for the empty
    input. *)
Theorem gen_combinations_count input :
  exists r, gen_combinations input = Some r /\
    length r = match input with [] => 0 | _ => fact (length input) end.
Proof.
  destruct (gen_aux_spec (length input) input eq_refl) as (r & Hr & Hl & _).
  exists r. by split.
Qed.

(** Every list returned by [gen_combinations] is a permutation of its
    input. *)
Theorem gen_combinations_perm input r z :
  gen_combinations input = Some r -> z ∈ r -> z ≡ₚ input.
Proof.
  intros H Hz. destruct (gen_aux_spec (length input) input eq_refl) as (r' & Hr & _ & Hp & _).
  unfold gen_combinations in H. rewrite H in Hr. injection Hr as <-. by apply Hp.
Qed.

(** Witness: [[0,1,2]] and its member [[2,0,1]]. *)
Lemma gen_combinations_perm_witness :
  gen_combinations [0; 1; 2]%Z = Some [[0; 1; 2]; [1; 0; 2]; [0; 2; 1]; [2; 0; 1]; [1; 2; 0]; [2; 1; 0]]%Z /\ [2; 0; 1]%Z ∈ [[0; 1; 2]; [1; 0; 2]; [0; 2; 1]; [2; 0; 1]; [1; 2; 0]; [2; 1; 0]]%Z /\
  [2; 0; 1]%Z ≡ₚ [0; 1; 2]%Z.
Proof.
  assert (H : gen_combinations [0; 1; 2]%Z = Some [[0; 1; 2]; [1; 0; 2]; [0; 2; 1]; [2; 0; 1]; [1; 2; 0]; [2; 1; 0]]%Z) by (vm_compute; reflexivity).
  assert (Hz : [2; 0; 1]%Z ∈ [[0; 1; 2]; [1; 0; 2]; [0; 2; 1]; [2; 0; 1]; [1; 2; 0]; [2; 1; 0]]%Z) by (refine (bool_decide_unpack _ _); vm_compute; exact I).
  split; [exact H|]. split; [exact Hz|]. exact (gen_combinations_perm _ _ _ H Hz).
Defined.

(** On an input without repeated elements, the lists returned by
    [gen_combinations] are pairwise distinct. *)
Theorem gen_combinations_nodup input r :
  NoDup input -> gen_combinations input = Some r -> NoDup r.
Proof.
  intros Hnd H. destruct (gen_aux_spec (length input) input eq_refl) as (r' & Hr & _ & _ & Hn & _).
  unfold gen_combinations in H. rewrite H in Hr. injection Hr as <-. by apply Hn.
Qed.

(** Witness: [[0,1,2]]. *)
Lemma gen_combinations_nodup_witness :
  NoDup [0; 1; 2]%Z /\ gen_combinations [0; 1; 2]%Z = Some [[0; 1; 2]; [1; 0; 2]; [0; 2; 1]; [2; 0; 1]; [1; 2; 0]; [2; 1; 0]]%Z /\ NoDup [[0; 1; 2]; [1; 0; 2]; [0; 2; 1]; [2; 0; 1]; [1; 2; 0]; [2; 1; 0]]%Z.
Proof.
  assert (Hn : NoDup [0; 1; 2]%Z) by (refine (bool_decide_unpack _ _); vm_compute; exact I).
  assert (H : gen_combinations [0; 1; 2]%Z = Some [[0; 1; 2]; [1; 0; 2]; [0; 2; 1]; [2; 0; 1]; [1; 2; 0]; [2; 1; 0]]%Z) by (vm_compute; reflexivity).
  split; [exact Hn|]. split; [exact H|]. exact (gen_combinations_nodup _ _ Hn H).
Defined.

(** Every permutation of a non-empty input is among the lists returned by
    [gen_combinations]. *)
Theorem gen_combinations_complete input r z :
  input <> [] -> gen_combinations input = Some r -> z ≡ₚ input -> z ∈ r.
Proof.
  intros Hne H Hz. destruct (gen_aux_spec (length input) input eq_refl) as (r' & Hr & _ & _ & _ & Hc).
  unfold gen_combinations in H. rewrite H in Hr. injection Hr as <-. by apply Hc.
Qed.

(** Witness: [[1,2,0]] is found among the permutations of [[0,1,2]]. *)
Lemma gen_combinations_complete_witness :
  gen_combinations [0; 1; 2]%Z = Some [[0; 1; 2]; [1; 0; 2]; [0; 2; 1]; [2; 0; 1]; [1; 2; 0]; [2; 1; 0]]%Z /\ [1; 2; 0]%Z ∈ [[0; 1; 2]; [1; 0; 2]; [0; 2; 1]; [2; 0; 1]; [1; 2; 0]; [2; 1; 0]]%Z.
Proof.
  assert (Hne : [0; 1; 2]%Z <> []) by discriminate.
  assert (H : gen_combinations [0; 1; 2]%Z = Some [[0; 1; 2]; [1; 0; 2]; [0; 2; 1]; [2; 0; 1]; [1; 2; 0]; [2; 1; 0]]%Z) by (vm_compute; reflexivity).
  assert (Hz : [1; 2; 0]%Z ≡ₚ [0; 1; 2]%Z)
    by apply Permutation_sym, (Permutation_cons_append [1; 2]%Z 0%Z).
  split; [exact H|]. exact (gen_combinations_complete _ _ _ Hne H Hz).
Defined.

(** ** Runs of [compute] *)

Lemma poke_length_d7 s d v s' :
  poke s d v = Some s' -> length (mem s') = length (mem s) /\ pc s' = pc s.
Proof.
  unfold poke. case_match; [|done]. intros [= <-]. simpl. by rewrite length_insert.
Qed.

Lemma step_length_d7 s inp :
  match step s inp with
  | Continue s' _ _ | Stop _ s' => length (mem s') = length (mem s)
  | Fault => True
  end.
Proof.
  unfold step. destruct (decode s (pc s)) as [ins|]; [|done].
  destruct ins; simpl; try (destruct inp; simpl);
    repeat (case_match; simpl); simplify_eq; simpl; try done;
    repeat match goal with H : (_ ≫= _) = Some _ |- _ => Day9Proofs.inv_bind H end;
    simplify_eq;
    repeat match goal with H : poke _ _ _ = Some _ |- _ => apply poke_length_d7 in H as [? ?] end;
    congruence.
Qed.

Lemma compute_loop_length_d7 fuel s inp out r s' out' :
  compute_loop fuel s inp out = Finished r s' out' -> length (mem s') = length (mem s).
Proof.
  revert s inp out. induction fuel as [|fuel IH]; intros s inp out; simpl; [done|].
  pose proof (step_length_d7 s inp) as Hl.
  destruct (step s inp) as [t i o|r' t|]; [|intros [= <- <- <-]; done|done].
  intros H. rewrite (IH _ _ _ H). done.
Qed.

Ltac step_cases :=
  repeat (match goal with
          | |- context [checked_i32 ?e] => destruct (checked_i32 e)
          | |- context [poke ?s ?d ?v] => destruct (poke s d v)
          | |- context [checked_u32 ?e] => destruct (checked_u32 e)
          | |- context [decide ?p] => destruct (decide p)
          end; simpl).

Lemma step_app_input_d7 s inp s' inp' o rest :
  step s inp = Continue s' inp' o -> step s (inp ++ rest) = Continue s' (inp' ++ rest) o.
Proof.
  unfold step. destruct (decode s (pc s)) as [ins|]; [|done].
  destruct ins; simpl; try (destruct inp; simpl); step_cases; intros Hx; simplify_eq; done.
Qed.

Lemma step_need_input_d7 s inp s' :
  step s inp = Stop NeedInput s' -> s' = s /\ inp = [].
Proof.
  unfold step. destruct (decode s (pc s)) as [ins|]; [|done].
  destruct ins; simpl; try (destruct inp; simpl); step_cases; intros Hx; simplify_eq; done.
Qed.

Lemma step_halt_d7 s inp s' :
  step s inp = Stop ProgramHalt s' -> s' = s /\ decode s (pc s) = Some Halt.
Proof.
  unfold step. destruct (decode s (pc s)) as [ins|]; [|done].
  destruct ins; simpl; try (destruct inp; simpl); step_cases; intros Hx; simplify_eq; done.
Qed.

Lemma step_halted_d7 s inp : decode s (pc s) = Some Halt -> step s inp = Stop ProgramHalt s.
Proof. unfold step. intros ->. done. Qed.

Lemma compute_loop_prepend_d7 fuel s inp out r s' out' o :
  compute_loop fuel s inp out = Finished r s' out' ->
  compute_loop fuel s inp (o ++ out) = Finished r s' (o ++ out').
Proof.
  revert s inp out. induction fuel as [|fuel IH]; intros s inp out; simpl; [done|].
  destruct (step s inp) as [t i [v|]| r' t |]; try done.
  - intros H. rewrite <- app_assoc. by apply IH.
  - apply IH.
  - intros [= <- <- <-]. done.
Qed.

Lemma compute_loop_resume_d7 f1 st i1 out st' out1 i2 f2 :
  compute_loop f1 st i1 out = Finished NeedInput st' out1 ->
  exists f, compute_loop f st (i1 ++ i2) out = compute_loop f2 st' i2 out1.
Proof.
  revert st i1 out. induction f1 as [|f1 IH]; intros st i1 out; simpl; [done|].
  destruct (step st i1) as [t i o| r t |] eqn:E; try done.
  - intros H. destruct (IH _ _ _ H) as [f Hf]. exists (S f). simpl.
    by rewrite (step_app_input_d7 _ _ _ _ _ _ E).
  - intros [= -> -> ->]. destruct (step_need_input_d7 _ _ _ E) as [-> ->].
    by exists f2.
Qed.

Lemma compute_loop_halt_d7 fuel st inp out st' out' :
  compute_loop fuel st inp out = Finished ProgramHalt st' out' ->
  decode st' (pc st') = Some Halt.
Proof.
  revert st inp out. induction fuel as [|fuel IH]; intros st inp out; simpl; [done|].
  destruct (step st inp) as [t i o|r t|] eqn:E; [apply IH|intros [= -> <- <-]|done].
  by destruct (step_halt_d7 _ _ _ E) as [-> ?].
Qed.

(** A run never changes the length of the memory vector: a write outside
    the program panics instead of growing it. *)
Theorem compute_memory_length fuel st inp r st' out :
  compute fuel st inp = Finished r st' out -> length (mem st') = length (mem st).
Proof. apply compute_loop_length_d7. Qed.

(** Witness: [3,0,4,0,99] run on [7] writes its cell 0 and keeps 5 cells. *)
Lemma compute_memory_length_witness :
  compute 5 (new [3; 0; 4; 0; 99]%Z) [7%Z] =
    Finished ProgramHalt {| mem := [7; 0; 4; 0; 99]%Z; pc := 4 |} [7%Z] /\
  length [7; 0; 4; 0; 99]%Z = length (mem (new [3; 0; 4; 0; 99]%Z)).
Proof.
  assert (H : compute 5 (new [3; 0; 4; 0; 99]%Z) [7%Z] =
    Finished ProgramHalt {| mem := [7; 0; 4; 0; 99]%Z; pc := 4 |} [7%Z])
    by (vm_compute; reflexivity).
  split; [exact H|]. exact (compute_memory_length _ _ _ _ _ _ H).
Defined.

(** Splitting the input across two calls: a run that stops with
    [NeedInput] and is resumed on further input ends in the same state,
    with the outputs concatenated, as one run on the concatenated input. *)
Theorem compute_split_input_d7 f1 st i1 st' o1 f2 i2 r st'' o2 :
  compute f1 st i1 = Finished NeedInput st' o1 ->
  compute f2 st' i2 = Finished r st'' o2 ->
  exists f, compute f st (i1 ++ i2) = Finished r st'' (o1 ++ o2).
Proof.
  unfold compute. intros H1 H2.
  destruct (compute_loop_resume_d7 f1 st i1 [] st' o1 i2 f2 H1) as [f Hf].
  exists f. rewrite Hf.
  pose proof (compute_loop_prepend_d7 f2 st' i2 [] r st'' o2 o1 H2) as H.
  by rewrite app_nil_r in H.
Qed.

(** Witness: [3,0,4,0,99] run first with no input, then with [7]. *)
Lemma compute_split_input_d7_witness :
  compute 1 (new [3; 0; 4; 0; 99]%Z) [] = Finished NeedInput (new [3; 0; 4; 0; 99]%Z) [] /\
  compute 5 (new [3; 0; 4; 0; 99]%Z) [7%Z] =
    Finished ProgramHalt {| mem := [7; 0; 4; 0; 99]%Z; pc := 4 |} [7%Z] /\
  exists f, compute f (new [3; 0; 4; 0; 99]%Z) ([] ++ [7%Z]) =
    Finished ProgramHalt {| mem := [7; 0; 4; 0; 99]%Z; pc := 4 |} ([] ++ [7%Z]).
Proof.
  assert (H1 : compute 1 (new [3; 0; 4; 0; 99]%Z) [] =
                 Finished NeedInput (new [3; 0; 4; 0; 99]%Z) []) by (vm_compute; reflexivity).
  assert (H2 : compute 5 (new [3; 0; 4; 0; 99]%Z) [7%Z] =
    Finished ProgramHalt {| mem := [7; 0; 4; 0; 99]%Z; pc := 4 |} [7%Z])
    by (vm_compute; reflexivity).
  split; [exact H1|]. split; [exact H2|].
  exact (compute_split_input_d7 1 _ [] _ [] 5 [7%Z] _ _ _ H1 H2).
Defined.

(** After a run that stops at the Halt opcode, every later call on the
    returned machine stops at once with [ProgramHalt], the machine
    unchanged and no output, whatever the input. *)
Theorem compute_halt_sticky_d7 fuel st inp st' out :
  compute fuel st inp = Finished ProgramHalt st' out ->
  forall fuel' inp', compute (S fuel') st' inp' = Finished ProgramHalt st' [].
Proof.
  unfold compute. intros H fuel' inp'. simpl.
  by rewrite (step_halted_d7 _ _ (compute_loop_halt_d7 _ _ _ _ _ _ H)).
Qed.

(** Witness: [1101,2,3,5,99,0] halts after one addition. *)
Lemma compute_halt_sticky_d7_witness :
  compute 2 (new [1101; 2; 3; 5; 99; 0]%Z) [] =
    Finished ProgramHalt {| mem := [1101; 2; 3; 5; 99; 5]%Z; pc := 4 |} [] /\
  compute 1 {| mem := [1101; 2; 3; 5; 99; 5]%Z; pc := 4 |} [1%Z; 2%Z] =
    Finished ProgramHalt {| mem := [1101; 2; 3; 5; 99; 5]%Z; pc := 4 |} [].
Proof.
  assert (H : compute 2 (new [1101; 2; 3; 5; 99; 0]%Z) [] =
    Finished ProgramHalt {| mem := [1101; 2; 3; 5; 99; 5]%Z; pc := 4 |} [])
    by (vm_compute; reflexivity).
  split; [exact H|]. exact (compute_halt_sticky_d7 _ _ _ _ _ H 0 [1%Z; 2%Z]).
Defined.

(** ** eval_amp_chain and eval_amp_chain_loopback *)

Lemma amp_chain_loop_init fuel amp_sw pre post input chain given :
  amp_chain_loop fuel amp_sw (seq (length pre) (length post)) (pre ++ post) input =
  (init_chain fuel amp_sw post input chain given ≫= fun '(fin, _, _) => Some fin).
Proof.
  revert pre input chain given. induction post as [|p ps IH]; intros pre input chain given;
    [done|].
  simpl. rewrite list_lookup_middle by done. simpl.
  destruct (compute fuel (new amp_sw) (<[0:=p]> input)); try done.
  destruct (output !! 0) as [o|]; simpl; [|done].
  rewrite <- (IH (pre ++ [p])). rewrite <- app_assoc, length_app. simpl.
  by rewrite Nat.add_1_r.
Qed.

Lemma compute_halted s fuel inp :
  decode s (pc s) = Some Halt -> compute (S fuel) s inp = Finished ProgramHalt s [].
Proof. intros H. unfold compute. simpl. by rewrite (step_halted_d7 _ _ H). Qed.

Lemma chain_round_cons fuel i idx chain input r :
  chain_round fuel (i :: idx) chain input r =
  match chain !! i with
  | None => inr LoopCrashed
  | Some iss =>
      match compute fuel iss input with
      | Finished reason iss' output => chain_round fuel idx (<[i := iss']> chain) output reason
      | Crashed => inr LoopCrashed
      | OutOfFuel => inr LoopOutOfFuel
      end
  end.
Proof. done. Qed.

Lemma chain_round_halted fuel chain idx i input r :
  Forall (fun iss => decode iss (pc iss) = Some Halt) chain ->
  Forall (fun j => j < length chain) (i :: idx) ->
  chain_round (S fuel) (i :: idx) chain input r = inl (chain, [], ProgramHalt).
Proof.
  intros Hh. rewrite Forall_lookup in Hh.
  revert i input r. induction idx as [|j idx IH]; intros i input r Hi;
    apply Forall_cons in Hi as [Hi Hidx]; rewrite chain_round_cons;
    destruct (lookup_lt_is_Some_2 chain i Hi) as [iss Hiss]; rewrite Hiss;
    rewrite (compute_halted iss fuel input (Hh _ _ Hiss));
    rewrite list_insert_id by done; [done|].
  by apply IH.
Qed.

Lemma feedback_loop_halted rounds fuel chain input :
  Forall (fun iss => decode iss (pc iss) = Some Halt) chain ->
  length chain = 0 + 5 ->
  feedback_loop (S rounds) (S fuel) chain input = LoopCrashed.
Proof.
  intros Hh Hl. simpl in Hl. cbn [feedback_loop seq].
  rewrite (chain_round_halted fuel chain [1; 2; 3; 4] 0 input ProgramHalt Hh); [done|].
  rewrite Hl. repeat constructor; lia.
Qed.

Lemma init_chain_halting fuel amp_sw phases input chain given :
  (forall x y, exists st o rest,
     compute fuel (new amp_sw) [x; y] = Finished ProgramHalt st (o :: rest)) ->
  length input = 2 ->
  Forall (fun iss => decode iss (pc iss) = Some Halt) chain ->
  exists fin chain' given',
    init_chain fuel amp_sw phases input chain given = Some (fin, chain', given') /\
    length fin = 2 /\ length chain' = length chain + length phases /\
    Forall (fun iss => decode iss (pc iss) = Some Halt) chain'.
Proof.
  intros Hp. revert input chain given. induction phases as [|p ps IH];
    intros input chain given Hl Hc; simpl.
  - do 3 eexists. split; [done|]. split; [done|]. split; [lia | done].
  - destruct input as [|x [|y [|]]]; try done.
    destruct (Hp p y) as (st & o & rest & Hst). simpl. rewrite Hst. simpl.
    destruct (IH [p; o] (chain ++ [st]) (given ++ [[p; y]])) as (fin & chain' & given' & H & ? & ? & ?);
      [done | apply Forall_app; split; [done|]; constructor; [|done];
              by apply (compute_loop_halt_d7 fuel (new amp_sw) [p; y] [] st (o :: rest)) |].
    exists fin, chain', given'. split; [done|]. split; [done|].
    split; [rewrite length_app in *; simpl in *; lia | done].
Qed.

(** With five phase settings, [eval_amp_chain] (no feedback) returns the
    same signal as the initialisation block of [eval_amp_chain_loopback]:
    both run five fresh machines on [[phase, previous signal]], and fail
    together. *)
Theorem eval_amp_chain_init_agree fuel amp_sw phase_setting :
  length phase_setting = 5 ->
  eval_amp_chain fuel amp_sw phase_setting =
  (eval_amp_chain_init fuel amp_sw phase_setting ≫= fun '(fin, _, _) => fin !! 1).
Proof.
  intros H5. unfold eval_amp_chain, eval_amp_chain_init.
  rewrite <- H5.
  pose proof (amp_chain_loop_init fuel amp_sw [] phase_setting [0; 0]%Z [] []) as E.
  simpl in E. rewrite E.
  destruct (init_chain fuel amp_sw phase_setting [0; 0]%Z [] []) as [[[fin chain] given]|];
    done.
Qed.

(** The example program of the puzzle whose thruster signal is 43210. *)
Lemma eval_amp_chain_init_agree_witness :
  length [4; 3; 2; 1; 0]%Z = 5 /\
  eval_amp_chain 20 [3; 15; 3; 16; 1002; 16; 10; 16; 1; 16; 15; 15; 4; 15; 99; 0; 0]%Z
    [4; 3; 2; 1; 0]%Z = Some 43210%Z /\
  (eval_amp_chain_init 20 [3; 15; 3; 16; 1002; 16; 10; 16; 1; 16; 15; 15; 4; 15; 99; 0; 0]%Z
     [4; 3; 2; 1; 0]%Z ≫= fun '(fin, _, _) => fin !! 1) = Some 43210%Z.
Proof.
  assert (H5 : length [4; 3; 2; 1; 0]%Z = 5) by reflexivity.
  assert (H : eval_amp_chain 20 [3; 15; 3; 16; 1002; 16; 10; 16; 1; 16; 15; 15; 4; 15; 99; 0; 0]%Z
                [4; 3; 2; 1; 0]%Z = Some 43210%Z) by (vm_compute; reflexivity).
  split; [exact H5|]. split; [exact H|].
  rewrite <- (eval_amp_chain_init_agree 20
    [3; 15; 3; 16; 1002; 16; 10; 16; 1; 16; 15; 15; 4; 15; 99; 0; 0]%Z _ H5).
  exact H.
Defined.

(** [eval_amp_chain_loopback] on a program that halts with some output on
    every two-value input (a program for the chain without feedback)
    panics: the initialisation completes, but in the first feedback pass
    every amplifier has halted, outputs nothing, and [input[0]] is read
    from an empty vector. *)
Theorem eval_amp_chain_loopback_halting_program rounds fuel amp_sw phase_setting :
  (forall x y, exists st o rest,
     compute fuel (new amp_sw) [x; y] = Finished ProgramHalt st (o :: rest)) ->
  length phase_setting = 5 ->
  eval_amp_chain_loopback (S rounds) fuel amp_sw phase_setting = LoopCrashed.
Proof.
  intros Hp H5.
  destruct fuel as [|fuel]; [destruct (Hp 0%Z 0%Z) as (? & ? & ? & Hc); discriminate Hc|].
  unfold eval_amp_chain_loopback, eval_amp_chain_init.
  destruct (init_chain_halting (S fuel) amp_sw phase_setting [0; 0]%Z [] [] Hp eq_refl
              (Forall_nil_2 _)) as (fin & chain & given & Hi & Hfin & Hlc & Hh).
  rewrite Hi. destruct fin as [|a [|b [|]]]; try done.
  rewrite H5 in Hlc. exact (feedback_loop_halted rounds fuel chain [b] Hh Hlc).
Qed.

(** Witness: a program that reads two values and outputs the second. *)
Lemma eval_amp_chain_loopback_halting_program_witness :
  eval_amp_chain_loopback 1 10 [3; 7; 3; 8; 4; 8; 99; 0; 0]%Z [9; 8; 7; 6; 5]%Z = LoopCrashed.
Proof.
  apply eval_amp_chain_loopback_halting_program; [|reflexivity].
  intros x y. exists {| mem := [3; 7; 3; 8; 4; 8; 99; x; y]%Z; pc := 6 |}, y, [].
  vm_compute. reflexivity.
Defined.

(** Execution that reaches an address past the end of the memory vector
    crashes: reading the instruction word is out of bounds. *)
Theorem compute_past_end_crashes_d7 fuel st inp :
  (N.of_nat (length (mem st)) <= pc st)%N -> compute (S fuel) st inp = Crashed.
Proof.
  intros Hpc. unfold compute. simpl. unfold step, decode, peek.
  destruct (N.ltb_spec (pc st) (N.of_nat (length (mem st)))); [lia | done].
Qed.

(** Witness: the program [4,0] started at address 2. *)
Lemma compute_past_end_crashes_d7_witness :
  (N.of_nat (length (mem {| mem := mem (new [4; 0]%Z); pc := 2 |})) <=
   pc {| mem := mem (new [4; 0]%Z); pc := 2 |})%N /\
  compute 1 {| mem := mem (new [4; 0]%Z); pc := 2 |} [] = Crashed.
Proof.
  assert (H : (N.of_nat (length (mem {| mem := mem (new [4; 0]%Z); pc := 2 |})) <=
               pc {| mem := mem (new [4; 0]%Z); pc := 2 |})%N) by (vm_compute; discriminate).
  split; [exact H|]. exact (compute_past_end_crashes_d7 0 _ [] H).
Defined.

(** ** part_one and part_two *)

Lemma max_signal_none eval settings :
  foldl (fun acc c => signal ← acc; ps ← copy_phase c; v ← eval ps; Some (Z.max signal v))
    None settings = None.
Proof. induction settings; simpl; done. Qed.

Lemma max_signal_fold eval settings :
  forall a m,
  foldl (fun acc c => signal ← acc; ps ← copy_phase c; v ← eval ps; Some (Z.max signal v))
    (Some a) settings = Some m ->
  (a <= m)%Z /\
  (forall c, c ∈ settings -> length c = 5 /\ exists v, eval c = Some v /\ (v <= m)%Z) /\
  (m = a \/ exists c, c ∈ settings /\ eval c = Some m).
Proof.
  induction settings as [|c cs IH]; intros a m; simpl.
  { intros [= ->]. split; [lia|]. split; [|by left]. intros c Hc. by apply elem_of_nil in Hc. }
  unfold copy_phase at 2. destruct (decide (length c = 5)) as [H5|H5];
    [simpl | by rewrite max_signal_none].
  destruct (eval c) as [v|] eqn:Ev; [simpl | by rewrite max_signal_none].
  intros H. destruct (IH _ _ H) as (Hle & Hall & Hex).
  split; [lia|]. split.
  - intros c' [->|Hc']%elem_of_cons; [split; [done|]; exists v; split; [done | lia]|].
    by apply Hall.
  - destruct Hex as [Hm | (c' & Hc' & Hv)].
    + destruct (Z.max_spec a v) as [[_ Hmax] | [_ Hmax]]; rewrite Hmax in Hm; [|by left].
      right. exists c. split; [apply list_elem_of_here | by subst].
    + right. exists c'. split; [by apply list_elem_of_further | done].
Qed.

Lemma max_signal_perms eval input m :
  input <> [] ->
  (combs ← gen_combinations input; max_signal eval combs) = Some m ->
  (forall ps, ps ≡ₚ input -> exists v, eval ps = Some v /\ (v <= m)%Z) /\
  (0 <= m)%Z /\
  (m = 0%Z \/ exists ps, ps ≡ₚ input /\ eval ps = Some m).
Proof.
  intros Hne. unfold gen_combinations.
  destruct (gen_aux_spec (length input) input eq_refl) as (r & Hr & _ & Hp & _ & Hc).
  rewrite Hr. simpl. unfold max_signal. intros H.
  destruct (max_signal_fold eval r 0%Z m H) as (H0 & Hall & Hex). split; [|split; [exact H0|]].
  - intros ps Hps. by apply Hall, Hc.
  - destruct Hex as [-> | (c & Hcr & Hv)]; [by left|]. right. exists c. split; [by apply Hp | done].
Qed.

(** [part_one] returns the largest thruster signal that [eval_amp_chain]
    gives over all orderings of the phase settings 0 to 4, or 0 if all are
    negative (the result is at least 0, at least every signal, and either 0
    or one of the signals); each ordering is evaluated and none of them
    panics. *)
Theorem part_one_max fuel prog m :
  part_one fuel prog = Some m ->
  (forall ps, ps ≡ₚ [0; 1; 2; 3; 4]%Z ->
     exists v, eval_amp_chain fuel prog ps = Some v /\ (v <= m)%Z) /\
  (0 <= m)%Z /\
  (m = 0%Z \/ exists ps, ps ≡ₚ [0; 1; 2; 3; 4]%Z /\ eval_amp_chain fuel prog ps = Some m).
Proof. apply max_signal_perms. discriminate. Qed.

(** Witness: the example program whose largest signal is 43210. *)
Lemma part_one_max_witness :
  part_one 20 [3; 15; 3; 16; 1002; 16; 10; 16; 1; 16; 15; 15; 4; 15; 99; 0; 0]%Z =
    Some 43210%Z /\
  (forall ps, ps ≡ₚ [0; 1; 2; 3; 4]%Z -> exists v,
     eval_amp_chain 20 [3; 15; 3; 16; 1002; 16; 10; 16; 1; 16; 15; 15; 4; 15; 99; 0; 0]%Z ps =
       Some v /\ (v <= 43210)%Z).
Proof.
  assert (H : part_one 20 [3; 15; 3; 16; 1002; 16; 10; 16; 1; 16; 15; 15; 4; 15; 99; 0; 0]%Z =
                Some 43210%Z) by (vm_compute; reflexivity).
  split; [exact H|]. exact (proj1 (part_one_max _ _ _ H)).
Defined.

(** [part_two] returns the largest thruster signal that
    [eval_amp_chain_loopback] gives over all orderings of the phase
    settings 5 to 9, or 0 if all are negative (the result is at least 0, at
    least every signal, and either 0 or one of the signals); each ordering
    is evaluated to a signal, none panics. *)
Theorem part_two_max rounds fuel prog m :
  part_two rounds fuel prog = Some m ->
  (forall ps, ps ≡ₚ [5; 6; 7; 8; 9]%Z ->
     exists v, eval_amp_chain_loopback rounds fuel prog ps = Signal v /\ (v <= m)%Z) /\
  (0 <= m)%Z /\
  (m = 0%Z \/ exists ps, ps ≡ₚ [5; 6; 7; 8; 9]%Z /\
     eval_amp_chain_loopback rounds fuel prog ps = Signal m).
Proof.
  intros H. apply max_signal_perms in H as (Hall & H0 & Hex); [|discriminate].
  split; [|split; [exact H0|]].
  - intros ps Hps. destruct (Hall ps Hps) as (v & Hv & Hle). exists v.
    destruct (eval_amp_chain_loopback rounds fuel prog ps); simplify_eq; done.
  - destruct Hex as [-> | (ps & Hps & Hv)]; [by left|]. right. exists ps. split; [done|].
    destruct (eval_amp_chain_loopback rounds fuel prog ps); simplify_eq; done.
Qed.

(** Witness: the program of [test_example_amp1_loopback], whose largest
    signal is 139629729. *)
Lemma part_two_max_witness :
  part_two 10 100 example_amp1_loopback = Some 139629729%Z /\
  (forall ps, ps ≡ₚ [5; 6; 7; 8; 9]%Z -> exists v,
     eval_amp_chain_loopback 10 100 example_amp1_loopback ps = Signal v /\
     (v <= 139629729)%Z).
Proof.
  assert (H : part_two 10 100 example_amp1_loopback = Some 139629729%Z)
    by (vm_compute; reflexivity).
  split; [exact H|]. exact (proj1 (part_two_max _ _ _ _ H)).
Defined.
End Day7Proofs.
